(** * dyn-api-profile: the instrumentation pass and its profiling runtime

    A shallow embedding of [src/profiling_runtime.c] (the runtime that
    aggregates call statistics) and of [src/DangerousAPIPass.cpp] (the
    LLVM pass that inserts the calls to [profiling_log]), with the
    properties of the specification proved or refuted on it. *)

From Stdlib Require Import ZArith NArith QArith Lia Ascii String.
From stdpp Require Import base list strings gmap.

Local Open Scope Z_scope.

(** ** C strings

    A [char] buffer and the memory behind a [const char*] are lists of
    characters; a C string ends at the first NUL, and the end of the list
    reads as NUL. *)
Module CString.

Definition NUL : ascii := Ascii.zero.

(** The line feed that ends a printed line. *)
Definition LF : string := String (ascii_of_nat 10) EmptyString.

Definition is_nul (c : ascii) : bool := Ascii.eqb c NUL.

(** The characters before the terminating NUL. *)
Fixpoint c_str (s : list ascii) : list ascii :=
  match s with
  | [] => []
  | c :: r => if is_nul c then [] else c :: c_str r
  end.

Definition uchar (c : ascii) : Z := Z.of_nat (nat_of_ascii c).

(** [strcmp]: 0 when both strings agree up to and including the
    terminator, otherwise the difference of the first two characters that
    differ, compared as [unsigned char]. *)
Fixpoint strcmp (s1 s2 : list ascii) : Z :=
  match s1, s2 with
  | [], [] => 0
  | [], c2 :: _ => uchar NUL - uchar c2
  | c1 :: _, [] => uchar c1 - uchar NUL
  | c1 :: r1, c2 :: r2 =>
      if Ascii.eqb c1 c2
      then (if is_nul c1 then 0 else strcmp r1 r2)
      else uchar c1 - uchar c2
  end.

(** [strncpy dst src n]: the first [n] characters of [dst] are
    overwritten with the characters of [src] up to its terminator, and
    with NULs after it; the characters of [dst] from [n] on are left as
    they are. *)
Fixpoint strncpy (dst src : list ascii) (n : nat) : list ascii :=
  match n, dst with
  | O, _ => dst
  | S _, [] => []
  | S n', _ :: dst' =>
      match src with
      | [] => NUL :: strncpy dst' [] n'
      | c :: src' =>
          if is_nul c then NUL :: strncpy dst' [] n'
          else c :: strncpy dst' src' n'
      end
  end.

End CString.

(** ** The profiling runtime ([src/profiling_runtime.c]) *)
Module Runtime.
Import CString.

Definition MAX_ENTRIES : nat := 1024.
Definition MAX_NAME_LEN : nat := 256.

(** [unsigned long] is 64 bits wide (LP64); its arithmetic wraps. *)
Definition ULONG_MOD : Z := 2 ^ 64.

Record timespec := mkTimespec { tv_sec : Z; tv_nsec : Z }.

Record ProfileEntry := mkEntry {
  api_name : list ascii;
  caller_name : list ascii;
  count : Z;
  first_call : timespec;
  last_call : timespec
}.

(** The global state: the table [profile_data], [num_entries] (an [int]
    that stays between 0 and [MAX_ENTRIES]), and the number of times
    [clock_gettime] has been called so far (the clock is an oracle
    indexed by that number). [profile_mutex] serialises the calls of
    [profiling_log], so a run is a sequence of calls. *)
Record state := mkState {
  profile_data : list ProfileEntry;
  num_entries : nat;
  clock_reads : N
}.

(** Static storage is zero-initialised. *)
Definition zero_entry : ProfileEntry :=
  {| api_name := replicate MAX_NAME_LEN NUL;
     caller_name := replicate MAX_NAME_LEN NUL;
     count := 0;
     first_call := mkTimespec 0 0;
     last_call := mkTimespec 0 0 |}.

Definition initial : state :=
  {| profile_data := replicate MAX_ENTRIES zero_entry;
     num_entries := 0;
     clock_reads := 0 |}.

(** The condition of the search loop of [find_or_create_entry]. *)
Definition entry_matches (api caller : list ascii) (e : ProfileEntry) : bool :=
  (strcmp (api_name e) api =? 0) && (strcmp (caller_name e) caller =? 0).

(** The search loop over [profile_data[i]], [i] running upwards. *)
Fixpoint search (api caller : list ascii) (es : list ProfileEntry) (i : nat)
  : option nat :=
  match es with
  | [] => None
  | e :: es' =>
      if entry_matches api caller e then Some i
      else search api caller es' (S i)
  end.

(** The entries in use: [profile_data[0 .. num_entries - 1]]. *)
Definition entries (st : state) : list ProfileEntry :=
  take (num_entries st) (profile_data st).

Definition find_entry (st : state) (api caller : list ascii) : option nat :=
  search api caller (entries st) 0.

(** The writes of the creation branch to [profile_data[idx]]. *)
Definition create_entry (api caller : list ascii) (now : timespec)
    (e : ProfileEntry) : ProfileEntry :=
  {| api_name := strncpy (api_name e) api (MAX_NAME_LEN - 1);
     caller_name := strncpy (caller_name e) caller (MAX_NAME_LEN - 1);
     count := 0;
     first_call := now;
     last_call := last_call e |}.

(** The writes of [profiling_log] to [profile_data[idx]]. *)
Definition record_call (now : timespec) (e : ProfileEntry) : ProfileEntry :=
  {| api_name := api_name e;
     caller_name := caller_name e;
     count := (count e + 1) mod ULONG_MOD;
     first_call := first_call e;
     last_call := now |}.

Section WithClock.

(** [clock n] is what the [n]-th call of
    [clock_gettime(CLOCK_MONOTONIC, _)] stores. *)
Variable clock : N -> timespec.

(** [find_or_create_entry]; the result [-1] is [None]. *)
Definition find_or_create_entry (st : state) (api caller : list ascii)
  : option nat * state :=
  match find_entry st api caller with
  | Some i => (Some i, st)
  | None =>
      if (num_entries st <? MAX_ENTRIES)%nat then
        let idx := num_entries st in
        (Some idx,
         {| profile_data :=
              alter (create_entry api caller (clock (clock_reads st))) idx
                    (profile_data st);
            num_entries := S idx;
            clock_reads := N.succ (clock_reads st) |})
      else (None, st)
  end.

Definition profiling_log (st : state) (api caller : list ascii) : state :=
  let '(idx, st1) := find_or_create_entry st api caller in
  match idx with
  | Some i =>
      {| profile_data :=
           alter (record_call (clock (clock_reads st1))) i (profile_data st1);
         num_entries := num_entries st1;
         clock_reads := N.succ (clock_reads st1) |}
  | None => st1
  end.

(** A run: the calls of [profiling_log] in the order in which they take
    the lock. *)
Definition run (ops : list (list ascii * list ascii)) (st : state) : state :=
  fold_left (fun s op => profiling_log s op.1 op.2) ops st.

(** [n] calls with the same two arguments. *)
Definition log_times (n : N) (api caller : list ascii) (st : state) : state :=
  N.iter n (fun s => profiling_log s api caller) st.

End WithClock.

(** *** The exit handler

    [profiling_init] registers [write_profile_data] with [atexit], once.
    The values handed to [fprintf] and [printf] are kept as they are
    computed; the formatting itself (rounding to two, three or one
    decimals) is not part of the model. Arithmetic on [double] is modelled
    by exact rational arithmetic. *)

(** A division of doubles; [None] is a division by zero. *)
Definition fdiv (x y : Q) : option Q :=
  if Qeq_bool y 0 then None else Some (x / y)%Q.

Definition time_diff_ms (start end_ : timespec) : Q :=
  (inject_Z (tv_sec end_ - tv_sec start) * 1000
   + inject_Z (tv_nsec end_ - tv_nsec start) / 1000000)%Q.

(** One object of the array [profile_data] of the report. *)
Record report_entry := mkReportEntry {
  r_api_name : list ascii;
  r_caller_function : list ascii;
  r_execution_count : Z;
  r_percentage_of_total : option Q;
  r_duration_ms : Q
}.

Record report := mkReport {
  r_profile_data : list report_entry;
  total_dangerous_calls : Z;
  unique_call_sites : nat
}.

(** The lines of the console summary. *)
Inductive console_line :=
  | Banner
  | TotalCalls (total : Z)
  | UniqueCallSites (n : nat)
  | ResultsWrittenTo (path : string)
  | TopCallSites
  | CallSite (caller api : list ascii) (calls : Z) (pct : option Q).

(** What the exit handler leaves behind: the lines on [stderr], the
    report file when it could be opened, and the lines on [stdout]. *)
Record output := mkOutput {
  on_stderr : list string;
  report_file : option report;
  on_stdout : list console_line
}.

Definition output_path : string := "dangerous_api_profile.json".

(** The first loop: [total_calls += profile_data[i].count]. *)
Definition sum_counts (es : list ProfileEntry) : Z :=
  fold_left (fun total e => (total + count e) mod ULONG_MOD) es 0.

(** The body of the second loop. *)
Definition report_line (total_calls : Z) (e : ProfileEntry) : report_entry :=
  let duration := time_diff_ms (first_call e) (last_call e) in
  let percentage :=
    if 0 <? total_calls
    then fdiv (inject_Z (count e) * 100) (inject_Z total_calls)
    else Some 0%Q in
  {| r_api_name := c_str (api_name e);
     r_caller_function := c_str (caller_name e);
     r_execution_count := count e;
     r_percentage_of_total := percentage;
     r_duration_ms := duration |}.

(** The line the last loop prints for an entry. *)
Definition call_site_line (total_calls : Z) (e : ProfileEntry) : console_line :=
  CallSite (c_str (caller_name e)) (c_str (api_name e)) (count e)
           (fdiv (inject_Z (count e) * 100) (inject_Z total_calls)).

(** The last loop: [for (i = 0; i < num_entries && i < 10; i++)]. *)
Fixpoint top_call_sites (total_calls : Z) (es : list ProfileEntry) (i : nat)
  : list console_line :=
  match es with
  | [] => []
  | e :: es' =>
      if (i <? 10)%nat then
        call_site_line total_calls e :: top_call_sites total_calls es' (S i)
      else []
  end.

(** [write_profile_data]; [fopen_ok] says whether [fopen] returned a
    stream. The handler reads the table and writes nothing to it. *)
Definition write_profile_data (fopen_ok : bool) (st : state) : state * output :=
  if negb fopen_ok then
    (st, {| on_stderr := [("Error: Could not open output file" ++ LF)%string];
            report_file := None;
            on_stdout := [] |})
  else
    let total_calls := sum_counts (entries st) in
    (st, {| on_stderr := [];
            report_file :=
              Some {| r_profile_data := map (report_line total_calls) (entries st);
                      total_dangerous_calls := total_calls;
                      unique_call_sites := num_entries st |};
            on_stdout :=
              [Banner; TotalCalls total_calls; UniqueCallSites (num_entries st);
               ResultsWrittenTo output_path; TopCallSites]
              ++ top_call_sites total_calls (entries st) 0 |}).

(** *** Vocabulary of the properties *)

(** A name as the creation branch stores it. *)
Definition truncate (s : list ascii) : list ascii :=
  take (MAX_NAME_LEN - 1) (c_str s).

(** The two names an entry holds, and the two names of a call after
    truncation. *)
Definition entry_key (e : ProfileEntry) : list ascii * list ascii :=
  (c_str (api_name e), c_str (caller_name e)).

Definition call_key (op : list ascii * list ascii) : list ascii * list ascii :=
  (truncate op.1, truncate op.2).

(** A name that fits the buffer with its terminator. *)
Definition fits (s : list ascii) : Prop :=
  (length (c_str s) <= MAX_NAME_LEN - 1)%nat.

Definition ts_le (a b : timespec) : Prop :=
  tv_sec a < tv_sec b \/ (tv_sec a = tv_sec b /\ tv_nsec a <= tv_nsec b).

(** A monotonic clock: later readings are not earlier, and [tv_nsec]
    is a number of nanoseconds within the second. *)
Definition monotonic (clock : N -> timespec) : Prop :=
  (forall i j, (i <= j)%N -> ts_le (clock i) (clock j)) /\
  (forall i, 0 <= tv_nsec (clock i) < 1000000000).

(** [n] recorded calls on an entry, the last one at [now]. *)
Definition bump (n : Z) (now : timespec) (e : ProfileEntry) : ProfileEntry :=
  {| api_name := api_name e;
     caller_name := caller_name e;
     count := (count e + n) mod ULONG_MOD;
     first_call := first_call e;
     last_call := now |}.

(** The entry a call leaves in a fresh slot: created at [t1], recorded
    at [t2]. *)
Definition new_entry (api caller : list ascii) (t1 t2 : timespec) : ProfileEntry :=
  record_call t2 (create_entry api caller t1 zero_entry).

(** The sum of the counts, without wrap-around. *)
Definition total_count (es : list ProfileEntry) : Z :=
  foldr (fun e s => count e + s) 0 es.

(** A call is recorded on the entry found, or on a new last entry, or
    not at all. *)
Inductive outcome (clock : N -> timespec) (st : state)
    (api caller : list ascii) (st' : state) : Prop :=
  | Found i e :
      find_entry st api caller = Some i ->
      entries st !! i = Some e ->
      entry_key e = (c_str api, c_str caller) ->
      entries st' = alter (record_call (clock (clock_reads st))) i (entries st) ->
      num_entries st' = num_entries st ->
      clock_reads st' = N.succ (clock_reads st) ->
      outcome clock st api caller st'
  | Created :
      find_entry st api caller = None ->
      (num_entries st < MAX_ENTRIES)%nat ->
      entries st' =
        entries st ++ [new_entry api caller (clock (clock_reads st))
                                 (clock (N.succ (clock_reads st)))] ->
      num_entries st' = S (num_entries st) ->
      clock_reads st' = N.succ (N.succ (clock_reads st)) ->
      outcome clock st api caller st'
  | Dropped :
      find_entry st api caller = None ->
      num_entries st = MAX_ENTRIES ->
      st' = st ->
      outcome clock st api caller st'.

(** Sample inputs: a name from a string literal, a name of 256
    characters, and a clock that advances by a second at every reading. *)
Definition name (s : string) : list ascii := list_ascii_of_string s.

Definition long_name : list ascii := replicate MAX_NAME_LEN "A"%char.

Definition clock0 (n : N) : timespec := mkTimespec (Z.of_N n) 0.



(** Both timestamps of an entry are readings of the clock, [first_call]
    an earlier one than [last_call], among the first [reads] readings. *)
Definition stamped (clock : N -> timespec) (reads : N) (e : ProfileEntry) : Prop :=
  exists i j, (i < j < reads)%N /\
    first_call e = clock i /\ last_call e = clock j.

(** The sum of the percentages of a report. *)
Definition pct_sum (res : list report_entry) : Q :=
  foldr (fun re s => (default 0 (r_percentage_of_total re) + s)%Q) 0%Q res.

(** The shape of the table in every state the program can be in: the
    array has its size, the slots past [num_entries] are still zero, and
    the names in use are terminated within their buffers. *)
Record wf (st : state) : Prop := mkWf {
  wf_length : length (profile_data st) = MAX_ENTRIES;
  wf_num : (num_entries st <= MAX_ENTRIES)%nat;
  wf_free : forall i, (num_entries st <= i < MAX_ENTRIES)%nat ->
            profile_data st !! i = Some zero_entry;
  wf_names : Forall (fun e => (length (entry_key e).1 <= MAX_NAME_LEN - 1)%nat /\
                              (length (entry_key e).2 <= MAX_NAME_LEN - 1)%nat)
                    (entries st)
}.

End Runtime.

(** ** The instrumentation pass ([src/DangerousAPIPass.cpp])

    The part of LLVM's program representation the pass looks at. An
    instruction is a heap object: [addr] is its address, which is what a
    [CallInst*] holds. *)
Module Pass.

(** A function as a call refers to it. *)
Record CalledFunction := mkCalled {
  fn_name : string;
  fn_isIntrinsic : bool
}.

Inductive Value :=
  | GlobalStringPtr (s : string)      (* a constant made by CreateGlobalStringPtr *)
  | Operand (v : nat).                (* any other value *)

Inductive InstKind :=
  | Call (called : option CalledFunction) (args : list Value)
      (* a CallInst; [called] is getCalledFunction(), [None] when it is
         null, as for a call through a pointer *)
  | Other (op : nat).                 (* an instruction that is not a CallInst *)

Record Instruction := mkInst { addr : nat; kind : InstKind }.

Definition BasicBlock := list Instruction.

Record IRFunction := mkFunction { fname : string; blocks : list BasicBlock }.

(** A module: its functions in order, the string constants created in
    it, and the next free instruction address. *)
Record IRModule := mkModule {
  functions : list IRFunction;
  globals : list string;
  next_addr : nat
}.

Inductive PreservedAnalyses := PA_none | PA_all.

(** A declaration has no basic block. *)
Definition isDeclaration (F : IRFunction) : bool :=
  match blocks F with [] => true | _ :: _ => false end.

(** [M.getOrInsertFunction(name, _)]: the function of that name, declared
    at the end of the module when there is none. The pass asks for
    [profiling_log], which is not an intrinsic. *)
Definition getOrInsertFunction (name : string) (M : IRModule)
  : CalledFunction * IRModule :=
  (mkCalled name false,
   if existsb (fun F => String.eqb (fname F) name) (functions M) then M
   else {| functions := functions M ++ [mkFunction name []];
           globals := globals M;
           next_addr := next_addr M |}).

Definition DangerousAPIs : list string := ["strcpy"%string].

(** The loop over [DangerousAPIs]: [push_back] and [break] at the first
    equal name. *)
Fixpoint match_apis (CalledName : string) (apis : list string)
    (CI : Instruction) (CallsToInstrument : list Instruction)
  : list Instruction :=
  match apis with
  | [] => CallsToInstrument
  | API :: apis' =>
      if String.eqb CalledName API then CallsToInstrument ++ [CI]
      else match_apis CalledName apis' CI CallsToInstrument
  end.

(** The body of the loop over the instructions of a block. *)
Definition scan_instruction (CallsToInstrument : list Instruction)
    (Inst : Instruction) : list Instruction :=
  match kind Inst with
  | Call (Some CalledFunc) _ =>
      if negb (fn_isIntrinsic CalledFunc)
      then match_apis (fn_name CalledFunc) DangerousAPIs Inst CallsToInstrument
      else CallsToInstrument
  | _ => CallsToInstrument
  end.

Definition scan_block (CallsToInstrument : list Instruction) (BB : BasicBlock)
  : list Instruction :=
  fold_left scan_instruction BB CallsToInstrument.

(** The scan phase on a function with a body. *)
Definition scan_function (F : IRFunction) : list Instruction :=
  fold_left scan_block (blocks F) [].

(** Insertion of [new] before the instruction at address [a], which is
    what a builder positioned at that instruction does. *)
Fixpoint insert_before (a : nat) (new : Instruction) (BB : BasicBlock)
  : BasicBlock :=
  match BB with
  | [] => []
  | Inst :: BB' =>
      if (addr Inst =? a)%nat then new :: Inst :: BB'
      else Inst :: insert_before a new BB'
  end.

(** What the rewrite loop changes: the blocks of the function at hand,
    the module's string constants and next free address, the flag
    [Modified] and the lines written to [errs()]. *)
Record rewrite_state := mkRewrite {
  rw_blocks : list BasicBlock;
  rw_globals : list string;
  rw_next : nat;
  Modified : bool;
  errs : list string
}.

(** The body of the rewrite loop for one collected call. Every collected
    call has a called function, so the last branch is never taken. *)
Definition instrument (LogFunc : CalledFunction) (Fname : string)
    (rs : rewrite_state) (CI : Instruction) : rewrite_state :=
  match kind CI with
  | Call (Some CalledFunc) _ =>
      let APIName := GlobalStringPtr (fn_name CalledFunc) in
      let CallerName := GlobalStringPtr Fname in
      let hook := mkInst (rw_next rs) (Call (Some LogFunc) [APIName; CallerName]) in
      {| rw_blocks := map (insert_before (addr CI) hook) (rw_blocks rs);
         rw_globals := rw_globals rs ++ [fn_name CalledFunc; Fname];
         rw_next := S (rw_next rs);
         Modified := true;
         errs := errs rs ++
           [("Instrumented " ++ fn_name CalledFunc ++ " in function "
             ++ Fname ++ CString.LF)%string] |}
  | _ => rs
  end.

(** The calls the pass collects for a function: a declaration is
    skipped before anything is collected. *)
Definition CallsToInstrument (F : IRFunction) : list Instruction :=
  if isDeclaration F then [] else scan_function F.

(** The state of the loop over the functions of the module: the
    functions already visited and the rest of the rewrite state. *)
Record pass_state := mkPass {
  visited : list IRFunction;
  ps_globals : list string;
  ps_next : nat;
  ps_Modified : bool;
  ps_errs : list string
}.

(** The body of the loop over the functions. *)
Definition run_on_function (LogFunc : CalledFunction) (ps : pass_state)
    (F : IRFunction) : pass_state :=
  if isDeclaration F then
    {| visited := visited ps ++ [F];
       ps_globals := ps_globals ps;
       ps_next := ps_next ps;
       ps_Modified := ps_Modified ps;
       ps_errs := ps_errs ps |}
  else
    let rs :=
      fold_left (instrument LogFunc (fname F)) (scan_function F)
        (mkRewrite (blocks F) (ps_globals ps) (ps_next ps) (ps_Modified ps)
                   (ps_errs ps)) in
    {| visited := visited ps ++ [mkFunction (fname F) (rw_blocks rs)];
       ps_globals := rw_globals rs;
       ps_next := rw_next rs;
       ps_Modified := Modified rs;
       ps_errs := errs rs |}.

Record pass_result := mkResult {
  out_module : IRModule;
  preserved : PreservedAnalyses;
  diagnostics : list string
}.

(** [DangerousAPIPass::run]. *)
Definition run (M : IRModule) : pass_result :=
  let '(LogFunc, M1) := getOrInsertFunction "profiling_log" M in
  let ps :=
    fold_left (run_on_function LogFunc) (functions M1)
      (mkPass [] (globals M1) (next_addr M1) false []) in
  {| out_module := mkModule (visited ps) (ps_globals ps) (ps_next ps);
     preserved := if ps_Modified ps then PA_none else PA_all;
     diagnostics := ps_errs ps |}.

(** *** Vocabulary of the properties *)

Definition instructions (F : IRFunction) : list Instruction :=
  concat (blocks F).

(** A call whose callee is known, is not an intrinsic and bears the name
    of a dangerous API. *)
Definition is_target (Inst : Instruction) : bool :=
  match kind Inst with
  | Call (Some CalledFunc) _ =>
      negb (fn_isIntrinsic CalledFunc)
      && existsb (String.eqb (fn_name CalledFunc)) DangerousAPIs
  | _ => false
  end.

Definition callee_name (Inst : Instruction) : string :=
  match kind Inst with
  | Call (Some CalledFunc) _ => fn_name CalledFunc
  | _ => ""
  end.

(** The call to the logging hook for the call site [Inst] in the
    function named [Fname]. *)
Definition hook_kind (LogFunc : CalledFunction) (Fname : string)
    (Inst : Instruction) : InstKind :=
  Call (Some LogFunc)
       [GlobalStringPtr (callee_name Inst); GlobalStringPtr Fname].

(** A block with a hook call right before each call site. *)
Definition instrumented_kinds (LogFunc : CalledFunction) (Fname : string)
    (BB : BasicBlock) : list InstKind :=
  flat_map (fun Inst =>
              if is_target Inst
              then [hook_kind LogFunc Fname Inst; kind Inst]
              else [kind Inst]) BB.

(** [BB'] is [BB] instrumented: its instructions are those of
    [instrumented_kinds], and the ones below the address [bound], which
    are the ones that were there before, are [BB] itself. *)
Definition block_rewritten (LogFunc : CalledFunction) (Fname : string)
    (bound : nat) (BB BB' : BasicBlock) : Prop :=
  map kind BB' = instrumented_kinds LogFunc Fname BB /\
  List.filter (fun Inst => addr Inst <? bound)%nat BB' = BB.

Definition function_rewritten (LogFunc : CalledFunction) (bound : nat)
    (F F' : IRFunction) : Prop :=
  fname F' = fname F /\
  Forall2 (block_rewritten LogFunc (fname F) bound) (blocks F) (blocks F').

(** The line written to [errs()] for a call site. *)
Definition diagnostic (Fname : string) (Inst : Instruction) : string :=
  ("Instrumented " ++ callee_name Inst ++ " in function " ++ Fname
   ++ CString.LF)%string.

(** Instructions are distinct objects, allocated below [next_addr]. *)
Definition wf_function (bound : nat) (F : IRFunction) : Prop :=
  NoDup (map addr (instructions F)) /\
  Forall (fun Inst => (addr Inst < bound)%nat) (instructions F).

Definition wf_module (M : IRModule) : Prop :=
  Forall (wf_function (next_addr M)) (functions M).

(** Whether a function has a call site, and what the rewrite phase
    writes for the call sites of a list of functions. *)
Definition has_site (F : IRFunction) : bool :=
  negb (bool_decide (CallsToInstrument F = [])).

Definition all_diagnostics (Fs : list IRFunction) : list string :=
  flat_map (fun F => map (diagnostic (fname F)) (CallsToInstrument F)) Fs.

Definition all_strings (Fs : list IRFunction) : list string :=
  flat_map (fun F => flat_map (fun c => [callee_name c; fname F])
                              (CallsToInstrument F)) Fs.

Definition site_count (Fs : list IRFunction) : nat :=
  length (flat_map CallsToInstrument Fs).

(** Sample inputs: a module whose [main] calls [strcpy] in two blocks,
    next to a call through a pointer and a call of an intrinsic; and a
    module with no call of a dangerous API. *)
Definition sample_module : IRModule :=
  mkModule
    [ mkFunction "strcpy" [];
      mkFunction "main"
        [ [ mkInst 0 (Call (Some (mkCalled "strcpy" false)) [Operand 0; Operand 1]);
            mkInst 1 (Call None [Operand 2]);
            mkInst 2 (Call (Some (mkCalled "llvm.memcpy" true))
                           [Operand 0; Operand 1]) ];
          [ mkInst 3 (Call (Some (mkCalled "strcpy" false)) [Operand 3; Operand 4]);
            mkInst 4 (Other 0) ] ] ]
    [] 5.

Definition quiet_module : IRModule :=
  mkModule
    [ mkFunction "main"
        [ [ mkInst 0 (Call (Some (mkCalled "puts" false)) [Operand 0]);
            mkInst 1 (Other 0) ] ] ]
    [] 2.

(** A block with the instruction [h !! a] before the one at address [a]. *)
Definition expand (h : gmap nat Instruction) (BB : BasicBlock) : BasicBlock :=
  flat_map (fun Inst =>
              match h !! addr Inst with
              | Some hook => [hook; Inst]
              | None => [Inst]
              end) BB.

End Pass.

(** ** Accounting for the calls of a run *)
Module Accounting.
Import CString Runtime.

(** The number of calls of a run whose names, after truncation, are
    those of [k]. *)
Definition occurrences (k : list ascii * list ascii)
    (ops : list (list ascii * list ascii)) : Z :=
  Z.of_nat (length (filter (fun op => call_key op = k) ops)).

(** The different elements of a list, each at the place of its first
    occurrence. *)
Definition first_occurrences (ks : list (list ascii * list ascii))
  : list (list ascii * list ascii) :=
  fold_left (fun seen k => if decide (k ∈ seen) then seen else seen ++ [k])
            ks [].

(** The call site a line of the console summary is about. *)
Definition site_of (l : console_line) : option (list ascii * list ascii) :=
  match l with
  | CallSite caller api _ _ => Some (api, caller)
  | _ => None
  end.


Section WithClock.

Variable clock : N -> timespec.

(** Whether [find_or_create_entry] returns an index, in which case
    [profiling_log] records the call. *)
Definition records (st : state) (api caller : list ascii) : bool :=
  match (find_or_create_entry clock st api caller).1 with
  | Some _ => true
  | None => false
  end.

(** The number of calls of a run that are recorded. *)
Fixpoint recorded_calls (ops : list (list ascii * list ascii)) (st : state)
  : nat :=
  match ops with
  | [] => 0
  | op :: ops' =>
      ((if records st op.1 op.2 then 1 else 0)
       + recorded_calls ops' (profiling_log clock st op.1 op.2))%nat
  end.

End WithClock.

End Accounting.

(** ** The life of the process: [profiling_init] and [exit] *)
Module Process.
Import Runtime.

(** The functions registered with [atexit]; the runtime registers one. *)
Inductive handler := Handler_write_profile_data.

(** The flag [initialized] and the handlers registered so far, the last
    one first, which is the order in which [exit] calls them. [atexit]
    is taken to succeed: the runtime does not look at what it returns. *)
Record process := mkProcess {
  initialized : bool;
  atexit_handlers : list handler
}.

(** At load time [initialized] is 0 and nothing is registered. *)
Definition startup : process := mkProcess false [].

Definition atexit (h : handler) (p : process) : process :=
  mkProcess (initialized p) (h :: atexit_handlers p).

(** [profiling_init], which the loader runs as a constructor. *)
Definition profiling_init (p : process) : process :=
  if negb (initialized p) then
    let p1 := atexit Handler_write_profile_data p in
    mkProcess true (atexit_handlers p1)
  else p.

Definition call_handler (fopen_ok : bool) (h : handler) (st : state)
  : state * output :=
  match h with
  | Handler_write_profile_data => write_profile_data fopen_ok st
  end.

(** [exit]: the registered handlers are called in turn; the result is
    the table they leave and what each of them has written. *)
Fixpoint exit_handlers (fopen_ok : bool) (hs : list handler) (st : state)
  : state * list output :=
  match hs with
  | [] => (st, [])
  | h :: hs' =>
      let '(st1, out) := call_handler fopen_ok h st in
      let '(st2, outs) := exit_handlers fopen_ok hs' st1 in
      (st2, out :: outs)
  end.

(** A program that runs [profiling_init] [inits] times, makes the calls
    [ops] and exits. *)
Definition program (clock : N -> timespec) (fopen_ok : bool) (inits : nat)
    (ops : list (list ascii * list ascii)) : state * list output :=
  let p := Nat.iter inits profiling_init startup in
  exit_handlers fopen_ok (atexit_handlers p) (run clock ops initial).

End Process.

(** ** The text of the report *)
Module ReportText.
Import CString Runtime.

(** The lines [write_profile_data] prints to the report file, one
    constructor for each format string, with the values it is given. *)
Inductive file_line :=
  | ObjectOpen                           (* the opening brace *)
  | ProfileDataOpen                      (* the key profile_data and its bracket *)
  | EntryOpen                            (* the brace that opens an object *)
  | ApiName (s : list ascii)             (* api_name, printed with %s *)
  | CallerFunction (s : list ascii)      (* caller_function, with %s *)
  | ExecutionCount (n : Z)               (* execution_count, with %lu *)
  | PercentageOfTotal (p : option Q)     (* percentage_of_total, with %.2f *)
  | DurationMs (d : Q)                   (* duration_ms, with %.3f *)
  | EntryClose (sep : string)            (* the closing brace, then %s *)
  | ProfileDataClose                     (* the closing bracket and a comma *)
  | SummaryOpen                          (* the key summary and its brace *)
  | TotalDangerousCalls (n : Z)          (* total_dangerous_calls, with %lu *)
  | UniqueCallSitesLine (n : nat)        (* unique_call_sites, with %d *)
  | SummaryClose                         (* the brace that closes the summary *)
  | ObjectClose.                         (* the closing brace *)

(** The lines of one object of the array, closed with [sep]. *)
Definition entry_lines (re : report_entry) (sep : string) : list file_line :=
  [EntryOpen;
   ApiName (r_api_name re);
   CallerFunction (r_caller_function re);
   ExecutionCount (r_execution_count re);
   PercentageOfTotal (r_percentage_of_total re);
   DurationMs (r_duration_ms re);
   EntryClose sep].

(** The second loop, [i] running upwards from its start value: the
    object of entry [i] is closed with a comma when
    [i < num_entries - 1]. *)
Fixpoint entries_lines (total_calls : Z) (n : nat) (es : list ProfileEntry)
    (i : nat) : list file_line :=
  match es with
  | [] => []
  | e :: es' =>
      entry_lines (report_line total_calls e)
                  (if (i <? n - 1)%nat then "," else "")
      ++ entries_lines total_calls n es' (S i)
  end.

(** What [write_profile_data] prints to the file it has opened. *)
Definition report_lines (st : state) : list file_line :=
  let total_calls := sum_counts (entries st) in
  [ObjectOpen; ProfileDataOpen]
  ++ entries_lines total_calls (num_entries st) (entries st) 0
  ++ [ProfileDataClose; SummaryOpen;
      TotalDangerousCalls total_calls; UniqueCallSitesLine (num_entries st);
      SummaryClose; ObjectClose].

(** The objects of a list, with a comma after each but the last. *)
Fixpoint comma_separated (res : list report_entry) : list file_line :=
  match res with
  | [] => []
  | [re] => entry_lines re ""
  | re :: res' => entry_lines re "," ++ comma_separated res'
  end.

End ReportText.

(** ** The pass run on its own output *)
Module Rerun.
Import Pass.

(** [is_target] and [callee_name] look at the kind of an instruction
    only. *)
Definition kind_is_target (k : InstKind) : bool := is_target (mkInst 0 k).

Definition kind_callee_name (k : InstKind) : string := callee_name (mkInst 0 k).

(** A hook call before each call site of a list of kinds. *)
Definition instrument_kinds (LogFunc : CalledFunction) (Fname : string)
    (ks : list InstKind) : list InstKind :=
  flat_map (fun k =>
              if kind_is_target k
              then [Call (Some LogFunc)
                         [GlobalStringPtr (kind_callee_name k);
                          GlobalStringPtr Fname]; k]
              else [k]) ks.

(** A block with two hook calls right before each call site. *)
Definition instrumented_twice_kinds (LogFunc : CalledFunction) (Fname : string)
    (BB : BasicBlock) : list InstKind :=
  flat_map (fun Inst =>
              if is_target Inst
              then [hook_kind LogFunc Fname Inst; hook_kind LogFunc Fname Inst;
                    kind Inst]
              else [kind Inst]) BB.

End Rerun.

(** ** Name buffers *)
Module Buffers.
Import CString Runtime.

(** A name buffer of the table whose last byte is NUL. *)
Definition terminated (buf : list ascii) : Prop :=
  length buf = MAX_NAME_LEN /\ buf !! (MAX_NAME_LEN - 1)%nat = Some NUL.

End Buffers.

(** * Properties *)

(** ** C strings *)
Module CStringFacts.
Import CString.

Lemma is_nul_true c : is_nul c = true <-> c = NUL.
Proof. unfold is_nul. apply Ascii.eqb_eq. Qed.

Lemma uchar_inj c1 c2 : uchar c1 = uchar c2 -> c1 = c2.
Proof.
  unfold uchar. intros H. apply Nat2Z.inj in H.
  rewrite <- (ascii_nat_embedding c1), <- (ascii_nat_embedding c2).
  by rewrite H.
Qed.

Lemma uchar_NUL : uchar NUL = 0.
Proof. reflexivity. Qed.

Lemma is_nul_NUL : is_nul NUL = true.
Proof. reflexivity. Qed.

Lemma c_str_no_nul s : NUL ∉ c_str s.
Proof.
  induction s as [|c r IH]; simpl.
  - apply not_elem_of_nil.
  - destruct (is_nul c) eqn:E.
    + apply not_elem_of_nil.
    + intros [Hc|H]%elem_of_cons; [|done].
      subst c. by rewrite is_nul_NUL in E.
Qed.

Lemma c_str_id s : NUL ∉ s -> c_str s = s.
Proof.
  induction s as [|c r IH]; simpl; [done|].
  intros H. apply not_elem_of_cons in H as [Hc Hr].
  destruct (is_nul c) eqn:E.
  - apply is_nul_true in E. congruence.
  - by rewrite IH.
Qed.

Lemma c_str_idemp s : c_str (c_str s) = c_str s.
Proof. apply c_str_id, c_str_no_nul. Qed.

(** [strcmp] returns 0 exactly on equal C strings. *)
Lemma strcmp_0_iff s1 s2 : strcmp s1 s2 = 0 <-> c_str s1 = c_str s2.
Proof.
  revert s2. induction s1 as [|c1 r1 IH]; intros [|c2 r2]; simpl.
  - done.
  - rewrite uchar_NUL. destruct (is_nul c2) eqn:E.
    + apply is_nul_true in E. subst. by rewrite uchar_NUL.
    + split; [|done]. intros H.
      assert (c2 = NUL) as -> by (apply uchar_inj; rewrite uchar_NUL; lia).
      by rewrite is_nul_NUL in E.
  - rewrite uchar_NUL. destruct (is_nul c1) eqn:E.
    + apply is_nul_true in E. subst. by rewrite uchar_NUL.
    + split; [|done]. intros H.
      assert (c1 = NUL) as -> by (apply uchar_inj; rewrite uchar_NUL; lia).
      by rewrite is_nul_NUL in E.
  - destruct (Ascii.eqb c1 c2) eqn:E.
    + apply Ascii.eqb_eq in E. subst c2.
      destruct (is_nul c1); [done|].
      rewrite IH. split; [by intros ->|]. by intros [= ->].
    + apply Ascii.eqb_neq in E. split.
      * intros H. destruct E. apply uchar_inj. lia.
      * destruct (is_nul c1) eqn:E1, (is_nul c2) eqn:E2; try done.
        -- apply is_nul_true in E1, E2. congruence.
        -- intros [= ? _]. done.
Qed.

(** What [strncpy] leaves in a buffer that is long enough and has a NUL
    right after the copied part: the source string, cut to [n]
    characters. *)
Lemma c_str_strncpy dst src n :
  (n < length dst)%nat ->
  dst !! n = Some NUL ->
  c_str (strncpy dst src n) = take n (c_str src).
Proof.
  revert dst src. induction n as [|n IH]; intros dst src Hlen Hn.
  - destruct dst as [|d dst']; simpl in *; [lia|].
    injection Hn as ->. by rewrite is_nul_NUL.
  - destruct dst as [|d dst']; simpl in *; [lia|].
    destruct src as [|c src']; simpl; [done|].
    destruct (is_nul c) eqn:E; simpl; [done|].
    rewrite E. f_equal. apply IH; [lia|done].
Qed.

Lemma length_strncpy dst src n : length (strncpy dst src n) = length dst.
Proof.
  revert dst src. induction n as [|n IH]; intros [|d dst'] src; simpl; try done.
  destruct src as [|c src']; simpl; [by rewrite IH|].
  destruct (is_nul c); simpl; by rewrite IH.
Qed.

Lemma strncpy_lookup_ge dst src n i :
  (n <= i)%nat -> strncpy dst src n !! i = dst !! i.
Proof.
  revert dst src i. induction n as [|n IH]; intros [|d dst'] src i Hi; simpl; try done.
  destruct i as [|i]; [lia|].
  destruct src as [|c src']; simpl; [apply IH; lia|].
  destruct (is_nul c); simpl; apply IH; lia.
Qed.

Example strcmp_equal :
  strcmp (list_ascii_of_string "strcpy" ++ [NUL; "x"%char])
         (list_ascii_of_string "strcpy") = 0.
Proof. reflexivity. Qed.

Example strcmp_prefix :
  strcmp (list_ascii_of_string "str") (list_ascii_of_string "strcpy") = -99.
Proof. reflexivity. Qed.

Example strncpy_pads :
  strncpy (replicate 6 "x"%char) (list_ascii_of_string "ab") 4
  = ["a"; "b"; NUL; NUL; "x"; "x"]%char.
Proof. reflexivity. Qed.

Example strncpy_cuts :
  strncpy (replicate 3 NUL) (list_ascii_of_string "abcd") 2
  = ["a"; "b"; NUL]%char.
Proof. reflexivity. Qed.

End CStringFacts.

(** ** The table and [profiling_log] *)
Module RuntimeFacts.
Import CString CStringFacts Runtime.

Lemma entry_matches_iff api caller e :
  entry_matches api caller e = true <-> entry_key e = (c_str api, c_str caller).
Proof.
  unfold entry_matches, entry_key.
  rewrite andb_true_iff, !Z.eqb_eq, !strcmp_0_iff.
  split; [intros [-> ->]; done | intros [= -> ->]; done].
Qed.

Lemma entry_matches_key api caller e e' :
  entry_key e = entry_key e' ->
  entry_matches api caller e = entry_matches api caller e'.
Proof.
  intros H. apply eq_true_iff_eq. by rewrite !entry_matches_iff, H.
Qed.

(** The search returns the first index whose entry matches. *)
Lemma search_Some api caller es i j :
  search api caller es i = Some j <->
  exists k e, j = (i + k)%nat /\ es !! k = Some e /\
    entry_matches api caller e = true /\
    forall k' e', (k' < k)%nat -> es !! k' = Some e' ->
                  entry_matches api caller e' = false.
Proof.
  revert i. induction es as [|e es IH]; intros i; simpl.
  - split; [done|]. by intros (k & e & _ & ? & _).
  - destruct (entry_matches api caller e) eqn:E.
    + split.
      * intros [= <-]. exists O, e. repeat split; [lia|done|]. intros; lia.
      * intros (k & e0 & -> & Hk & Hm & Hfirst).
        destruct k as [|k]; [f_equal; lia|].
        specialize (Hfirst O e ltac:(lia) eq_refl). congruence.
    + rewrite IH. split.
      * intros (k & e0 & -> & Hk & Hm & Hfirst).
        exists (S k), e0. repeat split; [lia|done|done|].
        intros [|k'] e' Hlt Hk'; simpl in Hk'; [congruence|].
        apply (Hfirst k'); [lia|done].
      * intros (k & e0 & -> & Hk & Hm & Hfirst).
        destruct k as [|k]; simpl in Hk; [congruence|].
        exists k, e0. repeat split; [lia|done|done|].
        intros k' e' Hlt Hk'. apply (Hfirst (S k')); [lia|done].
Qed.

Lemma search_None api caller es i :
  search api caller es i = None <->
  Forall (fun e => entry_matches api caller e = false) es.
Proof.
  revert i. induction es as [|e es IH]; intros i; simpl.
  - split; [constructor|done].
  - destruct (entry_matches api caller e) eqn:E.
    + split; [done|]. intros H. inversion H; congruence.
    + rewrite IH. split; [by constructor|]. intros H. by inversion H.
Qed.

Lemma search_lt api caller es i j :
  search api caller es i = Some j -> (i <= j < i + length es)%nat.
Proof.
  intros (k & e & -> & Hk & _)%search_Some.
  apply lookup_lt_Some in Hk. lia.
Qed.

(** The search only reads the names. *)
Lemma search_keys api caller es es' i :
  map entry_key es = map entry_key es' ->
  search api caller es i = search api caller es' i.
Proof.
  revert es' i. induction es as [|e es IH]; intros [|e' es'] i; simpl; try done.
  intros H. apply (f_equal head) in H as He. apply (f_equal tail) in H as Hes.
  simpl in He, Hes. assert (entry_key e = entry_key e') as He' by congruence.
  clear He. rename He' into He.
  rewrite (entry_matches_key _ _ _ _ He).
  destruct (entry_matches api caller e'); [done|]. by apply IH.
Qed.

Lemma length_entries st :
  wf st -> length (entries st) = num_entries st.
Proof.
  intros []. unfold entries. rewrite length_take. lia.
Qed.

Lemma find_entry_lt st api caller i :
  wf st -> find_entry st api caller = Some i -> (i < num_entries st)%nat.
Proof.
  intros Hwf H%search_lt. rewrite length_entries in H by done. lia.
Qed.

Lemma wf_initial : wf initial.
Proof.
  split; unfold entries, initial; cbn [profile_data num_entries].
  - apply length_replicate.
  - lia.
  - intros i Hi. apply lookup_replicate_2. lia.
  - rewrite take_0. constructor.
Qed.

Lemma entry_key_new_entry api caller t1 t2 :
  entry_key (new_entry api caller t1 t2) = (truncate api, truncate caller).
Proof.
  unfold entry_key, new_entry, truncate.
  cbn [record_call create_entry api_name caller_name zero_entry].
  rewrite !c_str_strncpy; first done.
  all: unfold MAX_NAME_LEN; first [ rewrite length_replicate; lia
                                   | apply lookup_replicate_2; lia ].
Qed.

Lemma count_new_entry api caller t1 t2 : count (new_entry api caller t1 t2) = 1.
Proof. reflexivity. Qed.

Lemma truncate_fits s : fits s -> truncate s = c_str s.
Proof. unfold fits, truncate. intros H. by rewrite take_ge. Qed.

Lemma length_truncate s : (length (truncate s) <= MAX_NAME_LEN - 1)%nat.
Proof. unfold truncate. rewrite length_take. lia. Qed.

Section Step.

Variable clock : N -> timespec.

(** The three ways a call of [profiling_log] ends. *)
Lemma profiling_log_found st api caller i :
  find_entry st api caller = Some i ->
  profiling_log clock st api caller =
  mkState (alter (record_call (clock (clock_reads st))) i (profile_data st))
          (num_entries st) (N.succ (clock_reads st)).
Proof.
  intros H. unfold profiling_log, find_or_create_entry. by rewrite H.
Qed.

Lemma profiling_log_created st api caller :
  find_entry st api caller = None ->
  (num_entries st < MAX_ENTRIES)%nat ->
  profiling_log clock st api caller =
  mkState (alter (record_call (clock (N.succ (clock_reads st))))
                 (num_entries st)
                 (alter (create_entry api caller (clock (clock_reads st)))
                        (num_entries st) (profile_data st)))
          (S (num_entries st)) (N.succ (N.succ (clock_reads st))).
Proof.
  intros H Hlt. unfold profiling_log, find_or_create_entry. rewrite H.
  apply Nat.ltb_lt in Hlt. by rewrite Hlt.
Qed.

Lemma profiling_log_dropped st api caller :
  find_entry st api caller = None ->
  (MAX_ENTRIES <= num_entries st)%nat ->
  profiling_log clock st api caller = st.
Proof.
  intros H Hge. unfold profiling_log, find_or_create_entry. rewrite H.
  apply Nat.ltb_ge in Hge. by rewrite Hge.
Qed.

(** The same, on the entries in use. *)
Lemma entries_found st api caller i :
  wf st -> find_entry st api caller = Some i ->
  entries (profiling_log clock st api caller) =
  alter (record_call (clock (clock_reads st))) i (entries st).
Proof.
  intros Hwf H. rewrite (profiling_log_found _ _ _ _ H).
  unfold entries. cbn [profile_data num_entries].
  apply take_alter_lt. by eapply find_entry_lt.
Qed.

Lemma entries_created st api caller :
  wf st -> find_entry st api caller = None ->
  (num_entries st < MAX_ENTRIES)%nat ->
  entries (profiling_log clock st api caller) =
  entries st ++ [new_entry api caller (clock (clock_reads st))
                           (clock (N.succ (clock_reads st)))].
Proof.
  intros Hwf H Hlt. rewrite (profiling_log_created _ _ _ H Hlt).
  unfold entries. cbn [profile_data num_entries].
  pose proof (wf_free _ Hwf (num_entries st) ltac:(lia)) as Hz.
  erewrite take_S_r.
  2:{ rewrite !list_lookup_alter_eq, Hz. reflexivity. }
  by rewrite !take_alter_ge by lia.
Qed.

Lemma wf_found st api caller i :
  wf st -> find_entry st api caller = Some i ->
  wf (profiling_log clock st api caller).
Proof.
  intros Hwf H. pose proof (find_entry_lt _ _ _ _ Hwf H) as Hi.
  split.
  - rewrite (profiling_log_found _ _ _ _ H). cbn [profile_data].
    rewrite length_alter. apply Hwf.
  - rewrite (profiling_log_found _ _ _ _ H). apply Hwf.
  - rewrite (profiling_log_found _ _ _ _ H). cbn [profile_data num_entries].
    intros j Hj. rewrite list_lookup_alter_ne by lia. by apply Hwf.
  - rewrite (entries_found _ _ _ i) by done.
    apply Forall_alter; [apply Hwf|]. intros e _ He. exact He.
Qed.

Lemma wf_created st api caller :
  wf st -> find_entry st api caller = None ->
  (num_entries st < MAX_ENTRIES)%nat ->
  wf (profiling_log clock st api caller).
Proof.
  intros Hwf H Hlt. split.
  - rewrite (profiling_log_created _ _ _ H Hlt). cbn [profile_data].
    rewrite !length_alter. apply Hwf.
  - rewrite (profiling_log_created _ _ _ H Hlt). cbn [num_entries]. lia.
  - rewrite (profiling_log_created _ _ _ H Hlt). cbn [profile_data num_entries].
    intros j Hj. rewrite !list_lookup_alter_ne by lia. apply Hwf. lia.
  - rewrite entries_created by done.
    apply Forall_app. split; [apply Hwf|].
    constructor; [|constructor].
    rewrite entry_key_new_entry. split; apply length_truncate.
Qed.

Lemma wf_profiling_log st api caller :
  wf st -> wf (profiling_log clock st api caller).
Proof.
  intros Hwf. destruct (find_entry st api caller) as [i|] eqn:H.
  - by eapply wf_found.
  - destruct (decide (num_entries st < MAX_ENTRIES)%nat).
    + by apply wf_created.
    + rewrite profiling_log_dropped; [done..|lia].
Qed.

Lemma run_app ops1 ops2 st :
  run clock (ops1 ++ ops2) st = run clock ops2 (run clock ops1 st).
Proof. apply fold_left_app. Qed.

Lemma run_cons op ops st :
  run clock (op :: ops) st = run clock ops (profiling_log clock st op.1 op.2).
Proof. reflexivity. Qed.

Lemma run_snoc ops op st :
  run clock (ops ++ [op]) st =
  profiling_log clock (run clock ops st) op.1 op.2.
Proof. by rewrite run_app. Qed.

Lemma wf_run ops st : wf st -> wf (run clock ops st).
Proof.
  revert st. induction ops as [|op ops IH]; intros st Hwf; [done|].
  rewrite run_cons. by apply IH, wf_profiling_log.
Qed.

Lemma profiling_log_outcome st api caller :
  wf st -> outcome clock st api caller (profiling_log clock st api caller).
Proof.
  intros Hwf. destruct (find_entry st api caller) as [i|] eqn:H.
  - pose proof H as (k & e & -> & Hk & Hm & _)%search_Some.
    apply (Found _ _ _ _ _ k e); try done.
    + by apply entry_matches_iff.
    + by apply entries_found.
    + by rewrite (profiling_log_found _ _ _ _ H).
    + by rewrite (profiling_log_found _ _ _ _ H).
  - destruct (decide (num_entries st < MAX_ENTRIES)%nat) as [Hlt|Hge].
    + apply Created; try done.
      * by apply entries_created.
      * by rewrite (profiling_log_created _ _ _ H Hlt).
      * by rewrite (profiling_log_created _ _ _ H Hlt).
    + pose proof (wf_num _ Hwf).
      apply Dropped; [done|lia|]. apply profiling_log_dropped; [done|lia].
Qed.

Lemma entry_key_bump n t e : entry_key (bump n t e) = entry_key e.
Proof. reflexivity. Qed.

Lemma map_entry_key_alter f i (es : list ProfileEntry) :
  (forall e, entry_key (f e) = entry_key e) ->
  map entry_key (alter f i es) = map entry_key es.
Proof.
  intros Hf. revert i. induction es as [|e es IH]; intros [|i]; simpl; try done.
  - by rewrite Hf.
  - f_equal. apply IH.
Qed.

(** A name too long for its buffer matches no entry. *)
Lemma find_entry_too_long st api caller :
  wf st -> ~ (fits api /\ fits caller) -> find_entry st api caller = None.
Proof.
  intros Hwf Hlong. apply search_None.
  eapply Forall_impl; [apply (wf_names _ Hwf)|].
  intros e [H1 H2]. apply not_true_is_false. intros Hm%entry_matches_iff.
  apply Hlong. rewrite Hm in H1, H2. by split.
Qed.

(** After a call that fits the buffers, its entry is found. *)
Lemma find_entry_created st api caller :
  wf st -> find_entry st api caller = None ->
  (num_entries st < MAX_ENTRIES)%nat -> fits api -> fits caller ->
  find_entry (profiling_log clock st api caller) api caller
  = Some (num_entries st).
Proof.
  intros Hwf H Hlt Ha Hc. unfold find_entry. rewrite entries_created by done.
  apply search_Some. eexists (num_entries st), _.
  pose proof (length_entries _ Hwf) as Hlen.
  split; [done|]. split; [|split].
  - by rewrite lookup_app_r, Hlen, Nat.sub_diag by lia.
  - apply entry_matches_iff. rewrite entry_key_new_entry.
    by rewrite !truncate_fits.
  - intros k e Hk He. rewrite lookup_app_l in He by lia.
    apply search_None in H. by eapply (Forall_lookup_1 _ _ _ _ H).
Qed.

(** [n + 1] calls on an entry that is found bump it [n + 1] times. *)
Lemma log_times_found st api caller i :
  wf st -> find_entry st api caller = Some i ->
  forall n,
  log_times clock (N.succ n) api caller st =
  mkState (alter (bump (Z.of_N n + 1) (clock (clock_reads st + n))) i
                 (profile_data st))
          (num_entries st) (N.succ (clock_reads st + n)).
Proof.
  intros Hwf H n. pose proof (find_entry_lt _ _ _ _ Hwf H) as Hi.
  unfold log_times. induction n as [|n IH] using N.peano_ind.
  - rewrite N.iter_succ. cbn [N.iter].
    rewrite (profiling_log_found _ _ _ _ H). by rewrite N.add_0_r.
  - rewrite N.iter_succ, IH. erewrite profiling_log_found.
    2:{ unfold find_entry, entries. cbn [profile_data num_entries].
        rewrite take_alter_lt by done.
        erewrite search_keys; [exact H|].
        apply map_entry_key_alter. intros e. apply entry_key_bump. }
    cbn [profile_data num_entries clock_reads].
    rewrite list_alter_alter_eq. f_equal.
    + apply list_alter_ext; [|done]. intros e _.
      unfold compose, record_call, bump. cbn [count api_name caller_name first_call].
      f_equal.
      * rewrite N2Z.inj_succ. unfold ULONG_MOD.
        rewrite Zplus_mod_idemp_l. f_equal. lia.
      * f_equal. lia.
    + lia.
Qed.

Lemma entries_log_times_found st api caller i :
  wf st -> find_entry st api caller = Some i ->
  forall n,
  entries (log_times clock (N.succ n) api caller st) =
  alter (bump (Z.of_N n + 1) (clock (clock_reads st + n))) i (entries st).
Proof.
  intros Hwf H n. rewrite (log_times_found _ _ _ _ Hwf H).
  unfold entries. cbn [profile_data num_entries].
  apply take_alter_lt. by eapply find_entry_lt.
Qed.

(** [n + 1] calls with names that fit, on a table that has room and
    does not hold them yet, leave one new entry. *)
Lemma entries_log_times_created st api caller :
  wf st -> find_entry st api caller = None ->
  (num_entries st < MAX_ENTRIES)%nat -> fits api -> fits caller ->
  forall n,
  entries (log_times clock (N.succ n) api caller st) =
  entries st ++
  [bump (Z.of_N n) (clock (N.succ (clock_reads st) + n))
        (new_entry api caller (clock (clock_reads st))
                   (clock (N.succ (clock_reads st))))].
Proof.
  intros Hwf H Hlt Ha Hc n. unfold log_times. rewrite N.iter_succ_r.
  pose proof (find_entry_created _ _ _ Hwf H Hlt Ha Hc) as Hfound.
  pose proof (wf_profiling_log _ api caller Hwf) as Hwf1.
  pose proof (length_entries _ Hwf) as Hlen.
  destruct n as [|p] using N.peano_ind.
  - cbn [N.iter]. rewrite entries_created by done. do 2 f_equal.
    rewrite N.add_0_r. reflexivity.
  - clear IHp. fold (log_times clock (N.succ p) api caller
                       (profiling_log clock st api caller)).
    rewrite (entries_log_times_found _ _ _ _ Hwf1 Hfound).
    rewrite entries_created by done.
    rewrite alter_app_r_alt by lia. rewrite Hlen, Nat.sub_diag.
    cbn [alter list_alter]. do 2 f_equal.
    rewrite (profiling_log_created _ _ _ H Hlt). cbn [clock_reads].
    unfold bump, new_entry, record_call.
    cbn [count api_name caller_name first_call last_call create_entry].
    f_equal.
    + rewrite N2Z.inj_succ. f_equal; lia.
    + f_equal; lia.
Qed.

End Step.

Section Capacity.

Variable clock : N -> timespec.

Lemma entries_initial : entries initial = [].
Proof. reflexivity. Qed.

Lemma num_entries_step st api caller :
  wf st ->
  (num_entries st <= num_entries (profiling_log clock st api caller)
   <= MAX_ENTRIES)%nat.
Proof.
  intros Hwf. pose proof (wf_num _ Hwf).
  destruct (profiling_log_outcome clock st api caller Hwf)
    as [i e _ _ _ _ -> _ | _ ? _ -> _ | _ _ ->]; lia.
Qed.




(** The names in the table are truncated names of earlier calls. *)
Lemma run_keys_seen ops :
  Forall (fun e => entry_key e ∈ map call_key ops)
         (entries (run clock ops initial)).
Proof.
  induction ops as [|op ops IH] using rev_ind; [constructor|].
  rewrite run_snoc, map_app.
  assert (Forall (fun e => entry_key e ∈ map call_key ops ++ map call_key [op])
                 (entries (run clock ops initial))) as IH'.
  { eapply Forall_impl; [exact IH|]. intros e He. apply elem_of_app. by left. }
  destruct (profiling_log_outcome clock (run clock ops initial) op.1 op.2
              (wf_run _ _ _ wf_initial))
    as [i e _ _ _ -> _ _ | _ _ -> _ _ | _ _ ->]; [| |done].
  - apply Forall_alter; [done|]. intros e0 _ He0. exact He0.
  - apply Forall_app. split; [done|]. constructor; [|constructor].
    rewrite entry_key_new_entry. apply elem_of_app. right. left.
Qed.

(** An entry with the names of the call is found. *)
Lemma find_entry_present st api caller e :
  e ∈ entries st -> entry_key e = (c_str api, c_str caller) ->
  exists i, find_entry st api caller = Some i.
Proof.
  intros He Hk. destruct (find_entry st api caller) as [i|] eqn:H; [by exists i|].
  apply search_None in H.
  pose proof (proj1 (Forall_forall _ _) H e He) as Hm. cbv beta in Hm.
  apply entry_matches_iff in Hk. congruence.
Qed.

End Capacity.


Section DistinctCalls.









End DistinctCalls.


Section Invariants.

Variable clock : N -> timespec.

Lemma total_count_app es1 es2 :
  total_count (es1 ++ es2) = total_count es1 + total_count es2.
Proof. induction es1 as [|e es1 IH]; simpl; lia. Qed.

Lemma total_count_alter f i es e :
  es !! i = Some e ->
  total_count (alter f i es) = total_count es - count e + count (f e).
Proof.
  revert i. induction es as [|e0 es IH]; intros [|i] H; simpl in *; try done.
  - injection H as ->. lia.
  - change (list_alter f i es) with (alter f i es). rewrite (IH i H). lia.
Qed.

Lemma total_count_ge es :
  Forall (fun e => 1 <= count e) es -> Z.of_nat (length es) <= total_count es.
Proof. induction 1 as [|e es He _ IH]; simpl; lia. Qed.

Lemma total_count_lookup es i e :
  Forall (fun e => 1 <= count e) es -> es !! i = Some e ->
  count e <= total_count es.
Proof.
  intros H. revert i. induction H as [|e0 es He Hes IH]; intros [|i] Hi;
    simpl in *; try done.
  - injection Hi as ->. pose proof (total_count_ge es Hes). lia.
  - specialize (IH i Hi). lia.
Qed.

(** The counts are values of [unsigned long]. *)
Lemma run_count_range ops :
  Forall (fun e => 0 <= count e < ULONG_MOD) (entries (run clock ops initial)).
Proof.
  induction ops as [|op ops IH] using rev_ind; [constructor|].
  rewrite run_snoc.
  destruct (profiling_log_outcome clock (run clock ops initial) op.1 op.2
              (wf_run _ _ _ wf_initial))
    as [i e _ _ _ -> _ _ | _ _ -> _ _ | _ _ ->]; [| |done].
  - apply Forall_alter; [done|]. intros e0 _ _. simpl.
    apply Z.mod_pos_bound. reflexivity.
  - apply Forall_app. split; [done|]. constructor; [|constructor].
    rewrite count_new_entry. unfold ULONG_MOD. lia.
Qed.

(** Every entry carries two readings of the clock, taken in order. *)
Lemma run_stamped ops :
  Forall (stamped clock (clock_reads (run clock ops initial)))
         (entries (run clock ops initial)).
Proof.
  induction ops as [|op ops IH] using rev_ind; [constructor|].
  rewrite run_snoc.
  destruct (profiling_log_outcome clock (run clock ops initial) op.1 op.2
              (wf_run _ _ _ wf_initial))
    as [i e _ _ _ -> _ -> | _ _ -> _ -> | _ _ ->]; [| |done].
  - apply Forall_alter.
    + eapply Forall_impl; [exact IH|]. intros e0 (a & b & ? & ? & ?).
      exists a, b. split; [lia|done].
    + intros e0 _ (a & b & ? & ? & ?).
      exists a, (clock_reads (run clock ops initial)). split; [lia|done].
  - apply Forall_app. split.
    + eapply Forall_impl; [exact IH|]. intros e0 (a & b & ? & ? & ?).
      exists a, b. split; [lia|done].
    + constructor; [|constructor].
      exists (clock_reads (run clock ops initial)),
             (N.succ (clock_reads (run clock ops initial))).
      split; [lia|done].
Qed.

(** Below 2^64 calls no count has wrapped: every entry has been counted
    at least once, and the counts add up to at most the number of calls. *)
Lemma run_counts ops :
  Z.of_nat (length ops) < ULONG_MOD ->
  Forall (fun e => 1 <= count e) (entries (run clock ops initial)) /\
  total_count (entries (run clock ops initial)) <= Z.of_nat (length ops).
Proof.
  induction ops as [|op ops IH] using rev_ind; intros Hlen.
  - split; [constructor|done].
  - rewrite length_app in Hlen. simpl in Hlen.
    destruct IH as [IH1 IH2]; [lia|].
    rewrite run_snoc, length_app. simpl length.
    destruct (profiling_log_outcome clock (run clock ops initial) op.1 op.2
                (wf_run _ _ _ wf_initial))
      as [i e _ He _ -> _ _ | _ _ -> _ _ | _ _ ->].
    + pose proof (total_count_lookup _ _ _ IH1 He) as Hle.
      pose proof (Forall_lookup_1 _ _ _ _ IH1 He) as Hge. cbv beta in Hge.
      assert (count (record_call (clock (clock_reads (run clock ops initial))) e)
              = count e + 1) as Hc.
      { simpl. apply Z.mod_small. lia. }
      split.
      * apply Forall_alter; [done|]. intros e0 He0 _.
        assert (e0 = e) as -> by congruence. lia.
      * rewrite (total_count_alter _ _ _ _ He). lia.
    + split.
      * apply Forall_app. split; [done|]. constructor; [|constructor].
        by rewrite count_new_entry.
      * rewrite total_count_app. unfold total_count at 2. cbn [foldr].
        rewrite count_new_entry. lia.
    + split; [done|lia].
Qed.

(** With a monotonic clock the timestamps of a stamped entry are in
    order, and the duration the report computes from them is not
    negative. *)
Lemma stamped_ts_le reads e :
  monotonic clock -> stamped clock reads e ->
  ts_le (first_call e) (last_call e).
Proof.
  intros [Hmono _] (i & j & Hij & -> & ->). apply Hmono. lia.
Qed.

Lemma time_diff_ms_nonneg reads e :
  monotonic clock -> stamped clock reads e ->
  (0 <= time_diff_ms (first_call e) (last_call e))%Q.
Proof.
  intros Hm Hs. pose proof (stamped_ts_le _ _ Hm Hs) as Hle.
  destruct Hm as [_ Hns]. destruct Hs as (i & j & _ & Hi & Hj).
  pose proof (Hns i) as H1. pose proof (Hns j) as H2.
  rewrite <- Hi in H1. rewrite <- Hj in H2.
  unfold time_diff_ms, ts_le in *.
  set (ds := tv_sec (last_call e) - tv_sec (first_call e)) in *.
  set (dn := tv_nsec (last_call e) - tv_nsec (first_call e)) in *.
  assert (0 <= ds * 1000000000 + dn) as Hnn by (subst ds dn; lia).
  assert (inject_Z ds * 1000 + inject_Z dn / 1000000
          == inject_Z (ds * 1000000000 + dn) / 1000000)%Q as ->.
  { rewrite inject_Z_plus, inject_Z_mult. field. }
  apply Qle_shift_div_l; [reflexivity|].
  rewrite Qmult_0_l. rewrite <- (Zle_Qle 0). exact Hnn.
Qed.

End Invariants.

Section Repeated.

Variable clock : N -> timespec.

Lemma wf_log_times n api caller st :
  wf st -> wf (log_times clock n api caller st).
Proof.
  intros Hwf. unfold log_times. induction n as [|n IH] using N.peano_ind; [done|].
  rewrite N.iter_succ. by apply wf_profiling_log.
Qed.

Lemma log_times_succ n api caller st :
  log_times clock (N.succ n) api caller st
  = profiling_log clock (log_times clock n api caller st) api caller.
Proof. unfold log_times. apply N.iter_succ. Qed.

(** [n] equal calls are a run of length [n]. *)
Lemma log_times_run n api caller st :
  log_times clock n api caller st
  = run clock (replicate (N.to_nat n) (api, caller)) st.
Proof.
  unfold log_times. revert st. induction n as [|n IH] using N.peano_ind; intros st.
  - reflexivity.
  - rewrite N.iter_succ_r, N2Nat.inj_succ. simpl replicate.
    rewrite run_cons. apply IH.
Qed.

(** [n + 1] calls with names that fit, on the empty table: one entry,
    with count [n + 1] modulo 2^64. *)
Lemma entries_log_times_initial api caller n :
  fits api -> fits caller ->
  entries (log_times clock (N.succ n) api caller initial) =
  [bump (Z.of_N n) (clock (1 + n))
        (new_entry api caller (clock 0%N) (clock 1%N))].
Proof.
  intros Ha Hc.
  rewrite (entries_log_times_created clock initial api caller wf_initial);
    [done|done| |done..].
  unfold initial, MAX_ENTRIES. cbn [num_entries]. lia.
Qed.

Lemma clock_reads_log_times_created st api caller :
  wf st -> find_entry st api caller = None ->
  (num_entries st < MAX_ENTRIES)%nat -> fits api -> fits caller ->
  forall n,
  clock_reads (log_times clock (N.succ n) api caller st)
  = (N.succ (N.succ (clock_reads st)) + n)%N.
Proof.
  intros Hwf H Hlt Ha Hc n. unfold log_times. rewrite N.iter_succ_r.
  pose proof (find_entry_created clock _ _ _ Hwf H Hlt Ha Hc) as Hfound.
  pose proof (wf_profiling_log clock _ api caller Hwf) as Hwf1.
  destruct n as [|p] using N.peano_ind.
  - cbn [N.iter]. rewrite (profiling_log_created _ _ _ _ H Hlt).
    cbn [clock_reads]. lia.
  - clear IHp. fold (log_times clock (N.succ p) api caller
                       (profiling_log clock st api caller)).
    rewrite (log_times_found clock _ _ _ _ Hwf1 Hfound).
    rewrite (profiling_log_created _ _ _ _ H Hlt). cbn [clock_reads]. lia.
Qed.

End Repeated.

Lemma fits_strcpy : fits (name "strcpy").
Proof. unfold fits. vm_compute. lia. Qed.

Lemma fits_main : fits (name "main").
Proof. unfold fits. vm_compute. lia. Qed.

Lemma monotonic_clock0 : monotonic clock0.
Proof.
  split.
  - intros i j Hij. unfold ts_le, clock0. simpl. lia.
  - intros i. simpl. lia.
Qed.

Section ExitHandler.

Lemma sum_counts_from es acc :
  fold_left (fun total e => (total + count e) mod ULONG_MOD) es (acc mod ULONG_MOD)
  = (acc + total_count es) mod ULONG_MOD.
Proof.
  revert acc. induction es as [|e es IH]; intros acc; simpl.
  - by rewrite Z.add_0_r.
  - rewrite Zplus_mod_idemp_l, IH. f_equal. lia.
Qed.

(** The accumulator of the first loop is the sum of the counts modulo
    2^64. *)
Lemma sum_counts_mod es : sum_counts es = total_count es mod ULONG_MOD.
Proof.
  unfold sum_counts. change 0 with (0 mod ULONG_MOD) at 1.
  by rewrite sum_counts_from.
Qed.

Lemma fdiv_Some x y : y <> 0 -> fdiv x (inject_Z y) = Some (x / inject_Z y)%Q.
Proof.
  intros Hy. unfold fdiv.
  destruct (Qeq_bool (inject_Z y) 0) eqn:E; [|done].
  apply Qeq_bool_eq in E. unfold Qeq in E. simpl in E. lia.
Qed.

Lemma fdiv_None x : fdiv x (inject_Z 0) = None.
Proof. reflexivity. Qed.

Lemma top_call_sites_take total es i :
  top_call_sites total es i = map (call_site_line total) (take (10 - i) es).
Proof.
  revert i. induction es as [|e es IH]; intros i; simpl.
  - by rewrite take_nil.
  - destruct (i <? 10)%nat eqn:E.
    + apply Nat.ltb_lt in E. rewrite IH.
      replace (10 - i)%nat with (S (10 - S i)) by lia. reflexivity.
    + apply Nat.ltb_ge in E. by replace (10 - i)%nat with O by lia.
Qed.

Lemma pct_sum_report total es :
  0 < total ->
  (pct_sum (map (report_line total) es)
   == inject_Z (total_count es) * 100 / inject_Z total)%Q.
Proof.
  intros Ht. assert (~ inject_Z total == 0)%Q as Hnz.
  { intros H. unfold Qeq in H. simpl in H. lia. }
  induction es as [|e es IH].
  - simpl. unfold Qdiv. by rewrite !Qmult_0_l.
  - change (map (report_line total) (e :: es))
      with (report_line total e :: map (report_line total) es).
    change (total_count (e :: es)) with (count e + total_count es).
    change (pct_sum (report_line total e :: map (report_line total) es))
      with (default 0 (r_percentage_of_total (report_line total e))
            + pct_sum (map (report_line total) es))%Q.
    rewrite IH. unfold report_line. cbn [r_percentage_of_total].
    apply Z.ltb_lt in Ht as Ht'. rewrite Ht'. rewrite fdiv_Some by lia.
    cbn [default from_option]. unfold id. rewrite inject_Z_plus. by field.
Qed.

End ExitHandler.

(** C1, at names longer than the buffers: three calls of
    [profiling_log] with the same two names, the first of 256 characters,
    leave three entries, each with count 1 and each under the same
    truncated key, where the specification promises one entry with
    count 3. *)
Theorem C1_long_name_three_entries :
  let st := log_times clock0 3 long_name (name "main") initial in
  num_entries st = 3%nat /\
  map count (entries st) = [1; 1; 1] /\
  map entry_key (entries st) =
    replicate 3 (truncate long_name, truncate (name "main")).
Proof. vm_compute. repeat split. Qed.

(** With names that fit their buffers, [n + 1] calls with the same two
    names leave one entry, under those names, whose count is [n + 1]
    modulo 2^64. *)
Theorem log_times_one_entry (clock : N -> timespec)
    (api caller : list ascii) (n : N) :
  fits api -> fits caller ->
  let st := log_times clock (N.succ n) api caller initial in
  num_entries st = 1%nat /\
  exists e, entries st = [e] /\
    entry_key e = (c_str api, c_str caller) /\
    count e = (Z.of_N n + 1) mod ULONG_MOD /\
    (Z.of_N n + 1 < ULONG_MOD -> count e = Z.of_N n + 1).
Proof.
  intros Ha Hc st.
  pose proof (entries_log_times_initial clock api caller n Ha Hc) as Hes.
  fold st in Hes. split.
  - rewrite <- (length_entries st); [by rewrite Hes|].
    apply wf_log_times, wf_initial.
  - eexists. split; [exact Hes|]. split; [|split].
    + rewrite entry_key_bump, entry_key_new_entry. by rewrite !truncate_fits.
    + unfold bump. cbn [count]. rewrite count_new_entry. f_equal. lia.
    + intros Hlt. unfold bump. cbn [count]. rewrite count_new_entry.
      rewrite Z.mod_small; lia.
Qed.

(** The same at three calls from [main]. *)
Lemma log_times_one_entry_witness :
  fits (name "strcpy") /\ fits (name "main") /\
  num_entries (log_times clock0 3 (name "strcpy") (name "main") initial) = 1%nat.
Proof.
  split; [exact fits_strcpy|]. split; [exact fits_main|].
  exact (proj1 (log_times_one_entry clock0 (name "strcpy") (name "main") 2
                  fits_strcpy fits_main)).
Defined.

(** A call with a name too long for its buffer finds no entry, whatever
    the table holds, and takes a new slot while there is one. *)
Theorem long_name_never_found (clock : N -> timespec)
    (ops : list (list ascii * list ascii)) (api caller : list ascii) :
  ~ (fits api /\ fits caller) ->
  let st := run clock ops initial in
  find_entry st api caller = None /\
  num_entries (profiling_log clock st api caller)
  = Nat.min (S (num_entries st)) MAX_ENTRIES.
Proof.
  intros Hlong st.
  pose proof (wf_run clock ops _ wf_initial) as Hwf. fold st in Hwf.
  pose proof (find_entry_too_long st api caller Hwf Hlong) as Hnone.
  split; [done|]. pose proof (wf_num _ Hwf) as Hle.
  destruct (profiling_log_outcome clock st api caller Hwf)
    as [i e Hf _ _ _ _ _ | _ Hlt _ -> _ | _ Hfull ->]; [congruence|lia|lia].
Qed.

(** The same at a second call with a name of 256 characters. *)
Lemma long_name_never_found_witness :
  ~ (fits long_name /\ fits (name "main")) /\
  find_entry (run clock0 [(long_name, name "main")] initial)
             long_name (name "main") = None.
Proof.
  assert (~ (fits long_name /\ fits (name "main"))) as Hlong.
  { intros [H _]. unfold fits in H. vm_compute in H. lia. }
  split; [exact Hlong|].
  exact (proj1 (long_name_never_found clock0 [(long_name, name "main")]
                  long_name (name "main") Hlong)).
Defined.

(** C5, as the code has it: in every state a run reaches, a call that
    is recorded on an entry whose count is below 2^64 - 1 raises that
    count by one, a call recorded on a new entry leaves it with count 1,
    every other entry keeps its count, and with a monotonic clock
    [first_call] is not later than [last_call] in every entry. *)
Theorem C5_count_and_timestamps (clock : N -> timespec)
    (ops : list (list ascii * list ascii)) (api caller : list ascii) :
  monotonic clock ->
  let st := run clock ops initial in
  let st' := profiling_log clock st api caller in
  (forall i e, entries st !! i = Some e ->
     0 <= count e < ULONG_MOD /\
     exists e', entries st' !! i = Some e' /\
       (find_entry st api caller = Some i ->
        count e < ULONG_MOD - 1 -> count e' = count e + 1) /\
       (find_entry st api caller <> Some i -> count e' = count e) /\
       (count e < ULONG_MOD - 1 -> count e <= count e')) /\
  (forall i e', entries st !! i = None -> entries st' !! i = Some e' ->
     count e' = 1) /\
  (forall e, e ∈ entries st -> ts_le (first_call e) (last_call e)).
Proof.
  intros Hmono st st'.
  pose proof (wf_run clock ops _ wf_initial) as Hwf. fold st in Hwf.
  pose proof (run_count_range clock ops) as Hrange. fold st in Hrange.
  split; [|split].
  - intros i e He.
    pose proof (Forall_lookup_1 _ _ _ _ Hrange He) as Hr. cbv beta in Hr.
    split; [done|]. unfold st'.
    destruct (profiling_log_outcome clock st api caller Hwf)
      as [j e0 Hf He0 _ -> _ _ | Hf _ -> _ _ | Hf _ ->].
    + destruct (decide (j = i)) as [->|Hne].
      * rewrite list_lookup_alter_eq, He. eexists. split; [done|].
        assert (count e < ULONG_MOD - 1 ->
                count (record_call (clock (clock_reads st)) e) = count e + 1)
          as Hinc.
        { intros Hlt. simpl. apply Z.mod_small. lia. }
        split; [by intros _|]. split; [congruence|].
        intros Hlt. rewrite Hinc by done. lia.
      * rewrite list_lookup_alter_ne by done. exists e. split; [done|].
        split; [congruence|]. split; [done|lia].
    + exists e. rewrite lookup_app_l by by eapply lookup_lt_Some.
      split; [done|]. split; [congruence|]. split; [done|lia].
    + exists e. split; [done|]. split; [congruence|]. split; [done|lia].
  - intros i e' Hnone He'. unfold st' in He'.
    destruct (profiling_log_outcome clock st api caller Hwf)
      as [j e0 _ _ _ Hes _ _ | _ _ Hes _ _ | _ _ Hst].
    + rewrite Hes in He'. apply lookup_lt_Some in He'.
      rewrite length_alter in He'. apply lookup_ge_None in Hnone. lia.
    + rewrite Hes in He'. apply lookup_ge_None in Hnone.
      rewrite lookup_app_r in He' by done.
      apply list_lookup_singleton_Some in He' as [_ <-]. apply count_new_entry.
    + rewrite Hst in He'. congruence.
  - intros e He. eapply stamped_ts_le; [done|].
    apply (proj1 (Forall_forall _ _) (run_stamped clock ops) e He).
Qed.

(** C5 at two calls from [main] followed by a third. *)
Lemma C5_count_and_timestamps_witness :
  monotonic clock0 /\
  let st := run clock0 [(name "strcpy", name "main"); (name "strcpy", name "main")]
                initial in
  forall e, e ∈ entries st -> ts_le (first_call e) (last_call e).
Proof.
  split; [exact monotonic_clock0|].
  exact (proj2 (proj2 (C5_count_and_timestamps clock0
    [(name "strcpy", name "main"); (name "strcpy", name "main")]
    (name "strcpy") (name "main") monotonic_clock0))).
Defined.

(** C5 as stated fails when the counter is full: after 2^64 - 1 calls
    from [main] the count is 2^64 - 1, and the next call, which is
    recorded on the same entry, leaves the count 0. *)
Lemma C5_count_wraps :
  let st := log_times clock0 (2 ^ 64 - 1) (name "strcpy") (name "main") initial in
  let st' := profiling_log clock0 st (name "strcpy") (name "main") in
  monotonic clock0 /\
  find_entry st (name "strcpy") (name "main") = Some 0%nat /\
  count <$> entries st !! 0%nat = Some (2 ^ 64 - 1) /\
  count <$> entries st' !! 0%nat = Some 0.
Proof.
  cbv zeta. rewrite <- log_times_succ. unfold find_entry.
  assert ((2 ^ 64 - 1)%N = N.succ (2 ^ 64 - 2)) as -> by (vm_compute; reflexivity).
  rewrite (entries_log_times_initial clock0 _ _ (2 ^ 64 - 2) fits_strcpy fits_main).
  rewrite (entries_log_times_initial clock0 _ _ (N.succ (2 ^ 64 - 2))
             fits_strcpy fits_main).
  split; [exact monotonic_clock0|]. split; [|split]; vm_compute; reflexivity.
Qed.

(** C9, as the code has it: the call that creates an entry leaves it
    with count 1 and with [last_call] set; in every state a run reaches,
    every entry carries two readings of the clock, taken in order, and
    has a duration that is not negative; and while fewer than 2^64 calls
    have been made every entry has a count of at least 1. *)
Theorem C9_entries_counted_and_stamped (clock : N -> timespec)
    (ops : list (list ascii * list ascii)) :
  monotonic clock ->
  let st := run clock ops initial in
  (forall api caller,
     find_entry st api caller = None -> (num_entries st < MAX_ENTRIES)%nat ->
     exists e, entries (profiling_log clock st api caller) = entries st ++ [e] /\
       count e = 1 /\
       first_call e = clock (clock_reads st) /\
       last_call e = clock (N.succ (clock_reads st))) /\
  Forall (fun e => stamped clock (clock_reads st) e /\
                   (0 <= time_diff_ms (first_call e) (last_call e))%Q)
         (entries st) /\
  (Z.of_nat (length ops) < ULONG_MOD ->
   Forall (fun e => 1 <= count e) (entries st)).
Proof.
  intros Hmono st. split; [|split].
  - intros api caller Hnone Hlt.
    exists (new_entry api caller (clock (clock_reads st))
                      (clock (N.succ (clock_reads st)))).
    split; [|done].
    apply entries_created; [|done..]. apply wf_run, wf_initial.
  - eapply Forall_impl; [apply run_stamped|]. intros e He. split; [done|].
    by eapply time_diff_ms_nonneg.
  - intros Hlen. by apply run_counts.
Qed.

(** C9 at one call from [main]. *)
Lemma C9_entries_counted_and_stamped_witness :
  monotonic clock0 /\
  let st := run clock0 [(name "strcpy", name "main")] initial in
  Forall (fun e => 1 <= count e) (entries st).
Proof.
  split; [exact monotonic_clock0|].
  apply (C9_entries_counted_and_stamped clock0 [(name "strcpy", name "main")]
           monotonic_clock0).
  vm_compute. reflexivity.
Defined.

(** C9 as stated fails after 2^64 calls from [main]: the one entry of the
    table has count 0. *)
Lemma C9_count_zero :
  let st := log_times clock0 (2 ^ 64) (name "strcpy") (name "main") initial in
  num_entries st = 1%nat /\ count <$> entries st !! 0%nat = Some 0.
Proof.
  cbv zeta.
  rewrite <- (length_entries _ (wf_log_times clock0 (2 ^ 64) (name "strcpy")
                                  (name "main") initial wf_initial)).
  assert ((2 ^ 64)%N = N.succ (2 ^ 64 - 1)) as -> by (vm_compute; reflexivity).
  rewrite (entries_log_times_initial clock0 _ _ (2 ^ 64 - 1) fits_strcpy fits_main).
  split; vm_compute; reflexivity.
Qed.




(** C6, as the code has it: the report's total is the sum of the counts
    modulo 2^64, its number of call sites is the number of entries, and
    each percentage is count * 100 / total when the total is positive and
    0 otherwise; when the sum of the counts is below 2^64 the total is
    that sum, the percentages add up to 100 when it is positive, and all
    are 0 when it is 0. *)
Theorem C6_report_totals (clock : N -> timespec)
    (ops : list (list ascii * list ascii)) :
  let st := run clock ops initial in
  exists r, report_file (write_profile_data true st).2 = Some r /\
    total_dangerous_calls r = total_count (entries st) mod ULONG_MOD /\
    unique_call_sites r = length (entries st) /\
    Forall2 (fun e re =>
               r_execution_count re = count e /\
               r_percentage_of_total re =
                 Some (if 0 <? total_dangerous_calls r
                       then inject_Z (count e) * 100
                            / inject_Z (total_dangerous_calls r)
                       else 0)%Q)
            (entries st) (r_profile_data r) /\
    (total_count (entries st) < ULONG_MOD ->
       total_dangerous_calls r = total_count (entries st) /\
       (0 < total_dangerous_calls r -> (pct_sum (r_profile_data r) == 100)%Q) /\
       (total_dangerous_calls r = 0 ->
          Forall (fun re => r_percentage_of_total re = Some 0%Q)
                 (r_profile_data r))).
Proof.
  intros st. eexists. split; [reflexivity|]. cbn [total_dangerous_calls
    unique_call_sites r_profile_data].
  pose proof (wf_run clock ops _ wf_initial) as Hwf. fold st in Hwf.
  split; [apply sum_counts_mod|]. split; [by rewrite length_entries|].
  assert (forall e, r_percentage_of_total (report_line (sum_counts (entries st)) e)
            = Some (if 0 <? sum_counts (entries st)
                    then inject_Z (count e) * 100
                         / inject_Z (sum_counts (entries st))
                    else 0)%Q) as Hpct.
  { intros e. unfold report_line. cbn [r_percentage_of_total].
    destruct (0 <? sum_counts (entries st)) eqn:E; [|done].
    apply Z.ltb_lt in E. by rewrite fdiv_Some by lia. }
  split.
  - apply Forall2_fmap_r, Forall_Forall2_diag, Forall_forall.
    intros e _. split; [done|apply Hpct].
  - intros Hsmall.
    assert (0 <= total_count (entries st)) as Hnn.
    { pose proof (run_count_range clock ops) as Hr. fold st in Hr.
      clear -Hr. induction Hr as [|e es He _ IH]; simpl; lia. }
    assert (sum_counts (entries st) = total_count (entries st)) as Hsum.
    { rewrite sum_counts_mod. apply Z.mod_small. lia. }
    split; [done|]. split.
    + intros Hpos. rewrite pct_sum_report by done. rewrite Hsum. field.
      intros H. unfold Qeq in H. simpl in H. lia.
    + intros H0. apply Forall_fmap, Forall_forall. intros e _.
      unfold compose. rewrite Hpct, H0. reflexivity.
Qed.

(** C6 at the scenario of the specification: [A] calls twice, [B] once;
    the total is 3, there are 2 call sites, and the percentages add up
    to 100. *)
Lemma C6_report_totals_witness :
  let st := run clock0 [(name "strcpy", name "A"); (name "strcpy", name "B");
                        (name "strcpy", name "A")] initial in
  exists r, report_file (write_profile_data true st).2 = Some r /\
    total_dangerous_calls r = 3 /\ unique_call_sites r = 2%nat /\
    (pct_sum (r_profile_data r) == 100)%Q.
Proof.
  intros st.
  destruct (C6_report_totals clock0
              [(name "strcpy", name "A"); (name "strcpy", name "B");
               (name "strcpy", name "A")])
    as (r & Hr & Htot & Huniq & _ & Hsmall).
  fold st in Hr, Htot, Huniq, Hsmall.
  assert (total_count (entries st) = 3) as Hc by (vm_compute; reflexivity).
  rewrite Hc in Htot, Hsmall.
  destruct Hsmall as (Ht & Hsum & _); [reflexivity|].
  exists r. split; [exact Hr|]. split; [exact Ht|]. split.
  - rewrite Huniq. vm_compute. reflexivity.
  - apply Hsum. rewrite Ht. reflexivity.
Defined.

(** C6 as stated fails when the accumulator wraps: after 2^63 calls from
    [A] and 2^63 calls from [B] both counts are 2^63 and the total the
    report gives is 0. *)
Lemma C6_total_wraps :
  let st := log_times clock0 (2 ^ 63) (name "strcpy") (name "B")
              (log_times clock0 (2 ^ 63) (name "strcpy") (name "A") initial) in
  exists r, report_file (write_profile_data true st).2 = Some r /\
    map r_execution_count (r_profile_data r) = [2 ^ 63; 2 ^ 63] /\
    total_dangerous_calls r = 0.
Proof.
  cbv zeta. eexists. split; [reflexivity|].
  cbn [r_profile_data total_dangerous_calls].
  assert ((2 ^ 63)%N = N.succ (2 ^ 63 - 1)) as -> by (vm_compute; reflexivity).
  assert (fits (name "A")) as HA by (unfold fits; vm_compute; lia).
  assert (fits (name "B")) as HB by (unfold fits; vm_compute; lia).
  pose proof (wf_log_times clock0 (N.succ (2 ^ 63 - 1)) (name "strcpy") (name "A")
                initial wf_initial) as Hwf.
  pose proof (entries_log_times_initial clock0 _ _ (2 ^ 63 - 1) fits_strcpy HA)
    as HesA.
  pose proof (clock_reads_log_times_created clock0 initial _ _ wf_initial
                eq_refl ltac:(unfold initial, MAX_ENTRIES; simpl; lia)
                fits_strcpy HA (2 ^ 63 - 1)) as HrdA.
  rewrite (entries_log_times_created clock0 _ (name "strcpy") (name "B") Hwf).
  - rewrite HesA, HrdA. split; vm_compute; reflexivity.
  - unfold find_entry. rewrite HesA. vm_compute. reflexivity.
  - rewrite <- (length_entries _ Hwf), HesA. unfold MAX_ENTRIES. simpl. lia.
  - exact fits_strcpy.
  - exact HB.
Qed.


(** C8: the handler never writes to the table; when the report file
    cannot be opened it writes the error line to [stderr] and returns,
    with no report and nothing on [stdout]; when the file is opened it
    writes no error, a report, and the console summary. *)
Theorem C8_open_failure (fopen_ok : bool) (st : state) :
  let res := write_profile_data fopen_ok st in
  res.1 = st /\
  (fopen_ok = false ->
     on_stderr res.2 = [("Error: Could not open output file" ++ LF)%string] /\
     report_file res.2 = None /\
     on_stdout res.2 = []) /\
  (fopen_ok = true ->
     on_stderr res.2 = [] /\
     is_Some (report_file res.2) /\
     on_stdout res.2 <> []).
Proof.
  intros res. unfold res, write_profile_data.
  destruct fopen_ok; cbn [negb fst snd on_stderr report_file on_stdout].
  - split; [done|]. split; [done|]. intros _.
    split; [done|]. split; [by eexists|done].
  - split; [done|]. split; [done|]. intros [=].
Qed.

(** C8 on the empty table. *)
Lemma C8_open_failure_witness :
  on_stderr (write_profile_data false initial).2
  = [("Error: Could not open output file" ++ LF)%string] /\
  report_file (write_profile_data false initial).2 = None /\
  on_stdout (write_profile_data false initial).2 = [].
Proof.
  exact (proj1 (proj2 (C8_open_failure false initial)) eq_refl).
Defined.

End RuntimeFacts.

(** ** The instrumentation pass *)
Module PassFacts.
Import Pass.

Lemma match_apis_spec CalledName apis CI calls :
  match_apis CalledName apis CI calls =
  if existsb (String.eqb CalledName) apis then calls ++ [CI] else calls.
Proof.
  induction apis as [|API apis IH]; simpl; [done|].
  destruct (String.eqb CalledName API); [done|]. exact IH.
Qed.

Lemma scan_instruction_spec calls Inst :
  scan_instruction calls Inst =
  if is_target Inst then calls ++ [Inst] else calls.
Proof.
  unfold scan_instruction, is_target.
  destruct (kind Inst) as [[f|] args|op]; try done.
  rewrite match_apis_spec. by destruct (fn_isIntrinsic f).
Qed.

Lemma scan_block_spec calls BB :
  scan_block calls BB = calls ++ List.filter is_target BB.
Proof.
  unfold scan_block. revert calls.
  induction BB as [|Inst BB IH]; intros calls; simpl.
  - by rewrite app_nil_r.
  - rewrite IH, scan_instruction_spec.
    destruct (is_target Inst); [|done]. by rewrite <- app_assoc.
Qed.

Lemma filter_concat {A} (f : A -> bool) (ls : list (list A)) :
  List.filter f (concat ls) = concat (map (List.filter f) ls).
Proof.
  induction ls as [|l ls IH]; simpl; [done|].
  by rewrite List.filter_app, IH.
Qed.

(** The scan phase collects the call sites of the function, each once,
    in the order of the blocks and of their instructions. *)
Lemma scan_function_spec F :
  scan_function F = List.filter is_target (instructions F).
Proof.
  unfold scan_function, instructions.
  assert (forall bbs calls,
            fold_left scan_block bbs calls
            = calls ++ List.filter is_target (concat bbs)) as H.
  { induction bbs as [|BB bbs IH]; intros calls; simpl.
    - by rewrite app_nil_r.
    - rewrite IH, scan_block_spec, List.filter_app. by rewrite <- app_assoc. }
  by rewrite H.
Qed.

Lemma is_target_iff Inst :
  is_target Inst = true <->
  exists CalledFunc args,
    kind Inst = Call (Some CalledFunc) args /\
    fn_isIntrinsic CalledFunc = false /\
    fn_name CalledFunc ∈ DangerousAPIs.
Proof.
  unfold is_target. destruct (kind Inst) as [[f|] args|op].
  - rewrite andb_true_iff, negb_true_iff, existsb_exists. split.
    + intros [Hi (API & Hin & Heq)]. apply String.eqb_eq in Heq. subst API.
      exists f, args. repeat split; [done|]. by apply list_elem_of_In.
    + intros (f' & args' & [= <- <-] & Hi & Hin). split; [done|].
      exists (fn_name f). split; [by apply list_elem_of_In|].
      apply String.eqb_refl.
  - split; [done|]. by intros (? & ? & ? & _).
  - split; [done|]. by intros (? & ? & ? & _).
Qed.

Lemma isDeclaration_instructions F :
  isDeclaration F = true -> instructions F = [].
Proof.
  unfold isDeclaration, instructions. by destruct (blocks F).
Qed.

Example CallsToInstrument_sample :
  map (fun F => map addr (CallsToInstrument F)) (functions sample_module)
  = [[]; [0; 3]]%nat.
Proof. reflexivity. Qed.

(** C3: a call is recorded for instrumentation exactly when it is an
    instruction of a function that has a body, its callee is known and
    is not an intrinsic, and the callee's name is one of the dangerous
    APIs; calls through a pointer and calls of intrinsics are never
    recorded; the recorded calls are the call sites in program order,
    each once; and a declaration is passed over with no diagnostic and
    no change. *)
Theorem C3_scan_records_call_sites (F : IRFunction) (Inst : Instruction) :
  (Inst ∈ CallsToInstrument F <->
     Inst ∈ instructions F /\ isDeclaration F = false /\
     exists CalledFunc args,
       kind Inst = Call (Some CalledFunc) args /\
       fn_isIntrinsic CalledFunc = false /\
       fn_name CalledFunc ∈ DangerousAPIs) /\
  (forall args, kind Inst = Call None args -> Inst ∉ CallsToInstrument F) /\
  (forall CalledFunc args,
     kind Inst = Call (Some CalledFunc) args ->
     fn_isIntrinsic CalledFunc = true -> Inst ∉ CallsToInstrument F) /\
  CallsToInstrument F = List.filter is_target (instructions F) /\
  (forall LogFunc ps,
     isDeclaration F = true ->
     CallsToInstrument F = [] /\
     run_on_function LogFunc ps F =
       mkPass (visited ps ++ [F]) (ps_globals ps) (ps_next ps)
              (ps_Modified ps) (ps_errs ps)).
Proof.
  assert (CallsToInstrument F = List.filter is_target (instructions F)) as Hspec.
  { unfold CallsToInstrument. destruct (isDeclaration F) eqn:E.
    - by rewrite isDeclaration_instructions.
    - apply scan_function_spec. }
  assert (Inst ∈ CallsToInstrument F <->
          Inst ∈ instructions F /\ is_target Inst = true) as Hin.
  { rewrite Hspec, !list_elem_of_In. apply List.filter_In. }
  split; [|split; [|split; [|split]]].
  - rewrite Hin, is_target_iff. split.
    + intros [HF Ht]. split; [done|]. split; [|done].
      destruct (isDeclaration F) eqn:E; [|done].
      rewrite isDeclaration_instructions in HF by done.
      by apply elem_of_nil in HF.
    + intros (HF & _ & Ht). done.
  - intros args Hk [_ Ht]%Hin. unfold is_target in Ht. by rewrite Hk in Ht.
  - intros f args Hk Hi [_ Ht]%Hin. unfold is_target in Ht.
    by rewrite Hk, Hi in Ht.
  - exact Hspec.
  - intros LogFunc ps Hd. split.
    + unfold CallsToInstrument. by rewrite Hd.
    + unfold run_on_function. by rewrite Hd.
Qed.

Section Rewrite.

Variable LogFunc : CalledFunction.
Variable Fname : string.

Lemma expand_cons h Inst BB :
  expand h (Inst :: BB) =
  match h !! addr Inst with
  | Some hook => [hook; Inst]
  | None => [Inst]
  end ++ expand h BB.
Proof. reflexivity. Qed.

Lemma expand_insert_notin h a new BB :
  a ∉ map addr BB -> expand (<[a:=new]> h) BB = expand h BB.
Proof.
  induction BB as [|Inst BB IH]; intros Ha; [done|].
  simpl in Ha. apply not_elem_of_cons in Ha as [Hne Ha].
  rewrite !expand_cons, lookup_insert_ne by done. by rewrite IH.
Qed.

(** Inserting before the instruction at [a] adds [a] to the map of the
    hooks, as long as no hook sits at the address [a]. *)
Lemma insert_before_expand h a new BB :
  NoDup (map addr BB) ->
  h !! a = None ->
  (forall a' hook, h !! a' = Some hook -> addr hook <> a) ->
  insert_before a new (expand h BB) = expand (<[a:=new]> h) BB.
Proof.
  intros Hnd Ha Hfresh. induction BB as [|Inst BB IH]; [done|].
  simpl in Hnd. apply NoDup_cons in Hnd as [Hhd Hnd].
  rewrite !expand_cons. destruct (decide (addr Inst = a)) as [<-|Hne].
  - rewrite Ha, lookup_insert_eq. simpl. rewrite Nat.eqb_refl.
    by rewrite expand_insert_notin.
  - rewrite lookup_insert_ne by done.
    destruct (h !! addr Inst) as [hook|] eqn:E; simpl.
    + pose proof (Hfresh _ _ E) as Hh.
      apply Nat.eqb_neq in Hh, Hne. rewrite Hh, Hne. by rewrite IH.
    + apply Nat.eqb_neq in Hne. rewrite Hne. by rewrite IH.
Qed.

Lemma NoDup_concat_elem {A} (ls : list (list A)) l :
  NoDup (concat ls) -> l ∈ ls -> NoDup l.
Proof.
  induction ls as [|l0 ls IH]; intros Hnd Hin; [by apply elem_of_nil in Hin|].
  simpl in Hnd. apply NoDup_app in Hnd as (H0 & _ & Hls).
  apply elem_of_cons in Hin as [->|Hin]; [done|]. by apply IH.
Qed.

Lemma map_concat_addr (bbs : list BasicBlock) :
  map addr (concat bbs) = concat (map (map addr) bbs).
Proof. induction bbs as [|BB bbs IH]; simpl; [done|]. by rewrite map_app, IH. Qed.

(** The body of the rewrite loop at a call site. *)
Lemma instrument_target rs c :
  is_target c = true ->
  instrument LogFunc Fname rs c =
  {| rw_blocks :=
       map (insert_before (addr c)
              (mkInst (rw_next rs) (hook_kind LogFunc Fname c)))
           (rw_blocks rs);
     rw_globals := rw_globals rs ++ [callee_name c; Fname];
     rw_next := S (rw_next rs);
     Modified := true;
     errs := errs rs ++ [diagnostic Fname c] |}.
Proof.
  intros (f & args & Hk & _ & _)%is_target_iff.
  unfold instrument, hook_kind, diagnostic, callee_name. by rewrite Hk.
Qed.

(** What the rewrite loop does to the flag, the diagnostics, the string
    constants and the next free address. *)
Lemma instrument_fold_state targets : forall rs,
  Forall (fun c => is_target c = true) targets ->
  let rs' := fold_left (instrument LogFunc Fname) targets rs in
  Modified rs' = (Modified rs || negb (bool_decide (targets = []))) /\
  errs rs' = errs rs ++ map (diagnostic Fname) targets /\
  rw_globals rs' =
    rw_globals rs ++ flat_map (fun c => [callee_name c; Fname]) targets /\
  rw_next rs' = (rw_next rs + length targets)%nat.
Proof.
  induction targets as [|c targets IH]; intros rs Ht.
  - simpl. rewrite orb_false_r, !app_nil_r. repeat split. lia.
  - apply Forall_cons in Ht as [Hc Ht]. simpl fold_left.
    destruct (IH (instrument LogFunc Fname rs c) Ht) as (H1 & H2 & H3 & H4).
    cbv zeta. rewrite H1, H2, H3, H4, (instrument_target _ _ Hc).
    cbn [Modified errs rw_globals rw_next].
    split; [by rewrite orb_true_r|]. split; [by rewrite <- app_assoc|].
    split; [by rewrite <- app_assoc|]. simpl. lia.
Qed.

(** What the rewrite loop does to the blocks. *)
Lemma instrument_fold_blocks (bound : nat) (bbs : list BasicBlock) targets :
  forall rs (h : gmap nat Instruction),
  NoDup (map addr (concat bbs)) ->
  Forall (fun c => is_target c = true) targets ->
  NoDup (map addr targets) ->
  (forall c, c ∈ targets -> h !! addr c = None) ->
  (forall c, c ∈ targets -> (addr c < bound)%nat) ->
  (bound <= rw_next rs)%nat ->
  (forall a hook, h !! a = Some hook -> (bound <= addr hook)%nat) ->
  rw_blocks rs = map (expand h) bbs ->
  exists h' : gmap nat Instruction,
    rw_blocks (fold_left (instrument LogFunc Fname) targets rs)
    = map (expand h') bbs /\
    (forall a hook, h' !! a = Some hook ->
       h !! a = Some hook \/
       exists c, c ∈ targets /\ a = addr c /\
                 kind hook = hook_kind LogFunc Fname c /\
                 (bound <= addr hook)%nat) /\
    (forall c, c ∈ targets -> is_Some (h' !! addr c)) /\
    (forall a hook, h !! a = Some hook -> h' !! a = Some hook \/
                    exists c, c ∈ targets /\ a = addr c).
Proof.
  induction targets as [|c targets IH];
    intros rs h Hnd Ht Hndt Hnone Hlt Hnext Hfresh Hblocks.
  - exists h. split; [done|]. split; [by left|]. split; [|by left].
    intros c Hc. by apply elem_of_nil in Hc.
  - apply Forall_cons in Ht as [Hc Ht]. simpl in Hndt.
    apply NoDup_cons in Hndt as [Hcnotin Hndt]. simpl fold_left.
    set (hook := mkInst (rw_next rs) (hook_kind LogFunc Fname c)).
    assert (kind hook = hook_kind LogFunc Fname c) as Hkind by done.
    rewrite (instrument_target _ _ Hc). fold hook.
    match goal with
    | |- context [fold_left _ targets ?r] => set (rs1 := r)
    end.
    destruct (IH rs1 (<[addr c := hook]> h))
      as (h' & Hb & Hh' & Hdom & Hkeep); try done.
    + intros c' Hc'. rewrite lookup_insert_ne; [apply Hnone; by right|].
      intros Heq. apply Hcnotin. rewrite Heq. by apply list_elem_of_fmap_2.
    + intros c' Hc'. apply Hlt. by right.
    + unfold rs1. cbn [rw_next]. lia.
    + intros a hk. rewrite lookup_insert. case_decide as Ha.
      * intros [= <-]. simpl. lia.
      * apply Hfresh.
    + unfold rs1. cbn [rw_blocks]. rewrite Hblocks.
      rewrite map_map. apply map_ext_in. intros BB HBB.
      apply insert_before_expand.
      * apply (NoDup_concat_elem (map (map addr) bbs)).
        -- by rewrite <- map_concat_addr.
        -- apply list_elem_of_fmap_2. by apply list_elem_of_In.
      * apply Hnone. left.
      * intros a' hk Hhk. pose proof (Hfresh _ _ Hhk).
        pose proof (Hlt c ltac:(left)). lia.
    + exists h'. split; [done|]. split; [|split].
      * intros a hk Hhk. destruct (Hh' a hk Hhk) as [Hins|(c' & ? & ? & ? & ?)].
        -- rewrite lookup_insert in Hins. case_decide as Ha.
           ++ injection Hins as <-. right. exists c. subst a.
              split; [left|]. split; [done|]. split; [done|]. simpl. lia.
           ++ by left.
        -- right. exists c'. split; [by right|done].
      * intros c' [->|Hc']%elem_of_cons; [|by apply Hdom].
        destruct (Hkeep (addr c) hook) as [->|(c' & Hc' & Heq)];
          [apply lookup_insert_eq|done|].
        rewrite Heq. by apply Hdom.
      * intros a hk Hhk. destruct (decide (a = addr c)) as [->|Hne].
        -- right. exists c. split; [left|done].
        -- destruct (Hkeep a hk) as [?|(c' & ? & ?)].
           ++ by rewrite lookup_insert_ne.
           ++ by left.
           ++ right. exists c'. split; [by right|done].
Qed.

Lemma expand_empty BB : expand ∅ BB = BB.
Proof.
  induction BB as [|Inst BB IH]; [done|].
  rewrite expand_cons, lookup_empty, IH. done.
Qed.

Lemma expand_kinds (h : gmap nat Instruction) BB :
  (forall Inst, Inst ∈ BB ->
     match h !! addr Inst with
     | Some hook => is_target Inst = true /\
                    kind hook = hook_kind LogFunc Fname Inst
     | None => is_target Inst = false
     end) ->
  map kind (expand h BB) = instrumented_kinds LogFunc Fname BB.
Proof.
  induction BB as [|Inst BB IH]; intros H; [done|].
  rewrite expand_cons, map_app. unfold instrumented_kinds. simpl flat_map.
  fold (instrumented_kinds LogFunc Fname BB).
  rewrite <- IH by (intros ? ?; apply H; by right).
  specialize (H Inst ltac:(left)).
  destruct (h !! addr Inst) as [hook|].
  - destruct H as [Ht Hk]. rewrite Ht. simpl. by rewrite Hk.
  - rewrite H. reflexivity.
Qed.

Lemma expand_filter (bound : nat) (h : gmap nat Instruction) BB :
  (forall Inst, Inst ∈ BB -> (addr Inst < bound)%nat) ->
  (forall a hook, h !! a = Some hook -> (bound <= addr hook)%nat) ->
  List.filter (fun Inst => addr Inst <? bound)%nat (expand h BB) = BB.
Proof.
  intros Hold Hnew. induction BB as [|Inst BB IH]; [done|].
  rewrite expand_cons, List.filter_app.
  rewrite IH by (intros ? ?; apply Hold; by right).
  pose proof (Hold Inst ltac:(left)) as Hlt. apply Nat.ltb_lt in Hlt.
  destruct (h !! addr Inst) as [hook|] eqn:E; simpl.
  - pose proof (Hnew _ _ E) as Hge. apply Nat.ltb_ge in Hge.
    by rewrite Hge, Hlt.
  - by rewrite Hlt.
Qed.

Lemma NoDup_map_inj {A B} (f : A -> B) (l : list A) x y :
  NoDup (map f l) -> x ∈ l -> y ∈ l -> f x = f y -> x = y.
Proof.
  induction l as [|z l IH]; intros Hnd Hx Hy Heq; [by apply elem_of_nil in Hx|].
  simpl in Hnd. apply NoDup_cons in Hnd as [Hz Hnd].
  apply elem_of_cons in Hx as [->|Hx], Hy as [->|Hy]; [done| | |by apply IH].
  - destruct Hz. rewrite Heq. by apply list_elem_of_fmap_2.
  - destruct Hz. rewrite <- Heq. by apply list_elem_of_fmap_2.
Qed.

Lemma NoDup_map_filter {A B} (f : A -> B) (p : A -> bool) (l : list A) :
  NoDup (map f l) -> NoDup (map f (List.filter p l)).
Proof.
  induction l as [|z l IH]; intros Hnd; [constructor|].
  simpl in Hnd. apply NoDup_cons in Hnd as [Hz Hnd]. simpl.
  destruct (p z); [|by apply IH]. simpl. apply NoDup_cons. split; [|by apply IH].
  intros (x & Heq & Hx)%list_elem_of_fmap. apply Hz. rewrite Heq.
  apply list_elem_of_fmap_2. apply list_elem_of_In in Hx.
  apply List.filter_In in Hx as [Hx _]. by apply list_elem_of_In.
Qed.

Lemma elem_of_instructions F BB Inst :
  BB ∈ blocks F -> Inst ∈ BB -> Inst ∈ instructions F.
Proof.
  intros HBB HI. unfold instructions. apply list_elem_of_In, in_concat.
  exists BB. split; by apply list_elem_of_In.
Qed.

End Rewrite.

(** The rewrite phase on a function with a body: every block gets one
    hook call right before each collected call and is otherwise as it
    was. *)
Lemma rewrite_function LogFunc (bound : nat) F rs :
  wf_function bound F ->
  rw_blocks rs = blocks F ->
  (bound <= rw_next rs)%nat ->
  Forall2 (block_rewritten LogFunc (fname F) bound) (blocks F)
    (rw_blocks (fold_left (instrument LogFunc (fname F)) (scan_function F) rs)).
Proof.
  intros [Hnd Hlt] Hblocks Hnext.
  assert (forall c, c ∈ scan_function F ->
                    c ∈ instructions F /\ is_target c = true) as Hscan.
  { intros c Hc. rewrite scan_function_spec in Hc.
    apply list_elem_of_In, List.filter_In in Hc as [Hc Ht].
    split; [by apply list_elem_of_In|done]. }
  destruct (instrument_fold_blocks LogFunc (fname F) bound (blocks F)
              (scan_function F) rs ∅) as (h' & -> & Hh' & Hdom & _).
  - exact Hnd.
  - apply Forall_forall. intros c Hc. by apply Hscan.
  - rewrite scan_function_spec. by apply NoDup_map_filter.
  - intros c _. apply lookup_empty.
  - intros c Hc. apply (proj1 (Forall_forall _ _) Hlt). by apply Hscan.
  - exact Hnext.
  - intros a hook Hh. by rewrite lookup_empty in Hh.
  - rewrite Hblocks. clear. induction (blocks F) as [|BB bbs IH]; [done|].
    simpl. by rewrite expand_empty, <- IH.
  - apply Forall2_fmap_r, Forall_Forall2_diag, Forall_forall.
    intros BB HBB. split.
    + apply expand_kinds. intros Inst HI.
      pose proof (elem_of_instructions _ _ _ HBB HI) as HF.
      destruct (h' !! addr Inst) as [hook|] eqn:E.
      * destruct (Hh' _ _ E) as [Hemp|(c & Hc & Ha & Hk & _)].
        { by rewrite lookup_empty in Hemp. }
        destruct (Hscan c Hc) as [HcF Hct].
        assert (Inst = c) as -> by by eapply (NoDup_map_inj addr).
        done.
      * destruct (is_target Inst) eqn:Ht; [|done].
        assert (Inst ∈ scan_function F) as Hin.
        { rewrite scan_function_spec. apply list_elem_of_In, List.filter_In.
          split; [by apply list_elem_of_In|done]. }
        destruct (Hdom _ Hin) as [hook Hhook]. congruence.
    + apply expand_filter.
      * intros Inst HI. apply (proj1 (Forall_forall _ _) Hlt).
        by eapply elem_of_instructions.
      * intros a hook Hh. destruct (Hh' _ _ Hh) as [Hemp|(c & _ & _ & _ & ?)].
        { by rewrite lookup_empty in Hemp. }
        done.
Qed.


(** The body of the loop over the functions. *)
Lemma run_on_function_spec LogFunc (bound : nat) ps F :
  wf_function bound F -> (bound <= ps_next ps)%nat ->
  exists F',
    run_on_function LogFunc ps F =
      mkPass (visited ps ++ [F'])
             (ps_globals ps ++ all_strings [F])
             (ps_next ps + site_count [F])
             (ps_Modified ps || has_site F)
             (ps_errs ps ++ all_diagnostics [F]) /\
    function_rewritten LogFunc bound F F' /\
    (CallsToInstrument F = [] -> F' = F).
Proof.
  intros Hwf Hnext. unfold run_on_function, all_strings, all_diagnostics,
    site_count, has_site, CallsToInstrument. simpl flat_map.
  rewrite !app_nil_r. destruct (isDeclaration F) eqn:Hd.
  - exists F. simpl. rewrite !app_nil_r, orb_false_r, Nat.add_0_r.
    split; [done|]. split; [|done]. split; [done|].
    unfold isDeclaration in Hd. destruct (blocks F); [constructor|done].
  - set (rs := mkRewrite (blocks F) (ps_globals ps) (ps_next ps)
                         (ps_Modified ps) (ps_errs ps)).
    assert (Forall (fun c => is_target c = true) (scan_function F)) as Ht.
    { rewrite scan_function_spec. apply Forall_forall. intros c Hc.
      by apply list_elem_of_In, List.filter_In in Hc as [_ ?]. }
    destruct (instrument_fold_state LogFunc (fname F) (scan_function F) rs Ht)
      as (-> & -> & -> & ->).
    eexists. split; [reflexivity|]. split.
    + split; [done|]. by apply rewrite_function.
    + intros ->. simpl. by destruct F.
Qed.

(** The loop over the functions. *)
Lemma run_on_functions_spec LogFunc (bound : nat) Fs : forall ps,
  Forall (wf_function bound) Fs -> (bound <= ps_next ps)%nat ->
  exists Fs',
    fold_left (run_on_function LogFunc) Fs ps =
      mkPass (visited ps ++ Fs')
             (ps_globals ps ++ all_strings Fs)
             (ps_next ps + site_count Fs)
             (ps_Modified ps || existsb has_site Fs)
             (ps_errs ps ++ all_diagnostics Fs) /\
    Forall2 (function_rewritten LogFunc bound) Fs Fs' /\
    ((forall F, F ∈ Fs -> CallsToInstrument F = []) -> Fs' = Fs).
Proof.
  induction Fs as [|F Fs IH]; intros ps Hwf Hnext.
  - exists []. simpl. rewrite !app_nil_r, orb_false_r, Nat.add_0_r.
    split; [by destruct ps|]. split; [constructor|done].
  - apply Forall_cons in Hwf as [HF Hwf]. simpl fold_left.
    destruct (run_on_function_spec LogFunc bound ps F HF Hnext)
      as (F' & -> & HFF' & Hsame).
    destruct (IH (mkPass (visited ps ++ [F']) (ps_globals ps ++ all_strings [F])
                         (ps_next ps + site_count [F])
                         (ps_Modified ps || has_site F)
                         (ps_errs ps ++ all_diagnostics [F])) Hwf)
      as (Fs' & -> & HFs & Hsames); [simpl; lia|].
    exists (F' :: Fs'). cbn [visited ps_globals ps_next ps_Modified ps_errs].
    split; [|split].
    + unfold all_strings, all_diagnostics, site_count. simpl flat_map.
      rewrite !app_nil_r, !length_app, <- !app_assoc, <- orb_assoc.
      f_equal. lia.
    + by constructor.
    + intros Hnone. rewrite Hsame, Hsames; [done| |].
      * intros F0 HF0. apply Hnone. by right.
      * apply Hnone. left.
Qed.


Lemma getOrInsertFunction_cases name M :
  (getOrInsertFunction name M).2 = M \/
  (getOrInsertFunction name M).2 =
    mkModule (functions M ++ [mkFunction name []]) (globals M) (next_addr M).
Proof.
  unfold getOrInsertFunction. simpl.
  destruct (existsb _ (functions M)); [by left|by right].
Qed.

Lemma CallsToInstrument_declaration name : CallsToInstrument (mkFunction name []) = [].
Proof. reflexivity. Qed.




Example run_quiet_module :
  run quiet_module =
  mkResult (mkModule (functions quiet_module ++ [mkFunction "profiling_log" []])
                     [] 2)
           PA_all [].
Proof. reflexivity. Qed.

Example run_sample_module_main :
  map (map (map addr) ∘ blocks) (functions (out_module (run sample_module)))
  = [[]; [[5; 0; 1; 2]; [6; 3; 4]]; []]%nat /\
  diagnostics (run sample_module)
  = ["Instrumented strcpy in function main" ++ CString.LF;
     "Instrumented strcpy in function main" ++ CString.LF]%string.
Proof. split; reflexivity. Qed.

Lemma wf_sample_module : wf_module sample_module.
Proof.
  unfold wf_module, sample_module. cbn [functions next_addr].
  apply Forall_cons. split.
  { split; [apply NoDup_nil_2|apply Forall_nil_2]. }
  apply Forall_cons. split; [|apply Forall_nil_2].
  split.
  - unfold instructions. simpl.
    repeat (apply NoDup_cons_2;
            [rewrite ?not_elem_of_cons; repeat split;
             first [discriminate | apply not_elem_of_nil]|]).
    apply NoDup_nil_2.
  - apply Forall_forall. intros Inst HI. unfold instructions in HI. simpl in HI.
    repeat (apply elem_of_cons in HI as [->|HI]; [simpl; lia|]).
    by apply elem_of_nil in HI.
Qed.



End PassFacts.

(** ** The counts, call site by call site *)
Module AccountingFacts.
Import CString CStringFacts Runtime RuntimeFacts Accounting.

Section Keys.

Variable clock : N -> timespec.

Lemma occurrences_snoc k ops op :
  occurrences k (ops ++ [op])
  = occurrences k ops + (if decide (call_key op = k) then 1 else 0).
Proof.
  unfold occurrences. rewrite filter_app, length_app.
  destruct (decide (call_key op = k)) as [H|H].
  - rewrite filter_cons_True by done. simpl. lia.
  - rewrite filter_cons_False by done. simpl. lia.
Qed.

Lemma occurrences_0 k ops :
  k ∉ map call_key ops -> occurrences k ops = 0.
Proof.
  intros Hk. unfold occurrences.
  induction ops as [|op ops IH]; [done|].
  rewrite fmap_cons, not_elem_of_cons in Hk. destruct Hk as [Hne Hk].
  rewrite filter_cons_False by done. by apply IH.
Qed.

(** A call adds entries at the end and keeps the names of the others. *)
Lemma step_keys_app st api caller :
  wf st ->
  exists l, map entry_key (entries (profiling_log clock st api caller))
            = map entry_key (entries st) ++ l.
Proof.
  intros Hwf.
  destruct (profiling_log_outcome clock st api caller Hwf)
    as [j e0 _ _ _ -> _ _ | _ _ -> _ _ | _ _ ->].
  - exists []. rewrite app_nil_r. by apply map_entry_key_alter.
  - eexists. apply map_app.
  - exists []. by rewrite app_nil_r.
Qed.

(** The names of an entry fit, so a call that finds an entry has the
    entry's names as its truncated names. *)
Lemma found_call_key st api caller e :
  wf st -> e ∈ entries st -> entry_key e = (c_str api, c_str caller) ->
  entry_key e = call_key (api, caller).
Proof.
  intros Hwf He Hk.
  pose proof (wf_names _ Hwf) as Hn. rewrite Forall_forall in Hn.
  destruct (Hn e He) as [H1 H2]. rewrite Hk in H1, H2. simpl in H1, H2.
  unfold call_key. simpl. rewrite !truncate_fits by done. done.
Qed.

(** Until the table is full, the names of every call are in it. *)
Lemma run_keys_cover ops :
  (forall op, op ∈ ops ->
     call_key op ∈ map entry_key (entries (run clock ops initial))) \/
  num_entries (run clock ops initial) = MAX_ENTRIES.
Proof.
  induction ops as [|op ops IH] using rev_ind.
  - left. intros op Hop. by apply elem_of_nil in Hop.
  - rewrite run_snoc.
    pose proof (wf_run clock ops _ wf_initial) as Hwf.
    set (st := run clock ops initial) in *.
    destruct IH as [IH|IH].
    2:{ right. pose proof (num_entries_step clock st op.1 op.2 Hwf). lia. }
    destruct (step_keys_app st op.1 op.2 Hwf) as [l Hl].
    destruct (profiling_log_outcome clock st op.1 op.2 Hwf)
      as [j e0 _ He0 Hk Hes _ _ | _ _ Hes _ _ | _ Hfull ->]; [| |by right].
    + left. intros op' Hop'. rewrite Hl. apply elem_of_app. left.
      apply elem_of_app in Hop'. destruct Hop' as [Hop'|Hop'].
      * by apply IH.
      * apply list_elem_of_singleton in Hop'. subst op'.
        assert (e0 ∈ entries st) as Hin by by eapply list_elem_of_lookup_2.
        destruct op as [api caller].
        rewrite <- (found_call_key st api caller e0 Hwf Hin Hk).
        by apply list_elem_of_fmap_2.
    + left. intros op' Hop'. rewrite Hes, map_app.
      apply elem_of_app in Hop'. destruct Hop' as [Hop'|Hop'].
      * apply elem_of_app. left. by apply IH.
      * apply list_elem_of_singleton in Hop'. subst op'.
        apply elem_of_app. right. simpl. rewrite entry_key_new_entry.
        destruct op. apply list_elem_of_here.
Qed.

Lemma find_entry_None_key st api caller :
  find_entry st api caller = None ->
  (c_str api, c_str caller) ∉ map entry_key (entries st).
Proof.
  intros Hf Hin. apply list_elem_of_fmap in Hin as (e & Hk & He).
  destruct (find_entry_present st api caller e He (eq_sym Hk)) as [i Hi].
  congruence.
Qed.

End Keys.

Section Counts.

Variable clock : N -> timespec.

Lemma run_counts_by_key ops :
  Forall (fun op => fits op.1 /\ fits op.2) ops ->
  NoDup (map entry_key (entries (run clock ops initial))) /\
  forall e, e ∈ entries (run clock ops initial) ->
    count e = occurrences (entry_key e) ops mod ULONG_MOD.
Proof.
  induction ops as [|op ops IH] using rev_ind; intros Hfit.
  - split; [constructor|]. intros e He. by apply elem_of_nil in He.
  - apply Forall_app in Hfit as [Hfit Hop].
    apply Forall_cons in Hop as [[Hf1 Hf2] _].
    destruct (IH Hfit) as [IHnd IHc]. clear IH.
    pose proof (run_keys_cover clock ops) as Hcover.
    rewrite run_snoc.
    pose proof (wf_run clock ops _ wf_initial) as Hwf.
    set (st := run clock ops initial) in *.
    assert (call_key op = (c_str op.1, c_str op.2)) as Hkey.
    { unfold call_key. by rewrite !truncate_fits. }
    destruct (profiling_log_outcome clock st op.1 op.2 Hwf)
      as [j e0 _ He0 Hk Hes _ _ | Hnone Hroom Hes _ _ | Hnone _ ->].
    + split.
      { rewrite Hes, map_entry_key_alter by done. done. }
      intros e He. rewrite Hes in He.
      apply list_elem_of_lookup in He as [i Hi].
      rewrite occurrences_snoc.
      destruct (decide (i = j)) as [->|Hne].
      * rewrite list_lookup_alter_eq, He0 in Hi. simpl in Hi.
        injection Hi as <-.
        change (entry_key (record_call _ e0)) with (entry_key e0).
        rewrite decide_True by congruence.
        cbn [count record_call].
        rewrite (IHc e0) by by eapply list_elem_of_lookup_2.
        by rewrite Zplus_mod_idemp_l.
      * rewrite list_lookup_alter_ne in Hi by done.
        rewrite decide_False.
        { rewrite Z.add_0_r. apply IHc. by eapply list_elem_of_lookup_2. }
        intros Heq. apply Hne.
        apply (NoDup_lookup _ i j (entry_key e) IHnd).
        -- by rewrite list_lookup_fmap, Hi.
        -- rewrite list_lookup_fmap, He0. simpl. congruence.
    + apply find_entry_None_key in Hnone. rewrite <- Hkey in Hnone.
      split.
      { rewrite Hes, map_app. apply NoDup_app. split; [done|]. split.
        - intros k Hk Hk'. simpl in Hk'. apply list_elem_of_singleton in Hk'.
          rewrite entry_key_new_entry in Hk'. subst k.
          by destruct op.
        - apply NoDup_singleton. }
      intros e He. rewrite Hes in He. rewrite occurrences_snoc.
      apply elem_of_app in He as [He|He].
      * rewrite decide_False.
        { rewrite Z.add_0_r. by apply IHc. }
        intros Heq. apply Hnone. rewrite Heq. by apply list_elem_of_fmap_2.
      * apply list_elem_of_singleton in He. subst e.
        rewrite entry_key_new_entry, count_new_entry.
        change (truncate op.1, truncate op.2) with (call_key op).
        rewrite decide_True by done.
        rewrite occurrences_0; [done|].
        intros Hin. apply Hnone.
        destruct Hcover as [Hcover|Hfull]; [|lia].
        apply list_elem_of_fmap in Hin as (op' & -> & Hop').
        by apply Hcover.
    + apply find_entry_None_key in Hnone. rewrite <- Hkey in Hnone.
      split; [done|]. intros e He. rewrite occurrences_snoc.
      rewrite decide_False.
      { rewrite Z.add_0_r. by apply IHc. }
      intros Heq. apply Hnone. rewrite Heq. by apply list_elem_of_fmap_2.
Qed.

Lemma records_found st api caller i :
  find_entry st api caller = Some i -> records clock st api caller = true.
Proof. intros H. unfold records, find_or_create_entry. by rewrite H. Qed.

Lemma records_created st api caller :
  find_entry st api caller = None -> (num_entries st < MAX_ENTRIES)%nat ->
  records clock st api caller = true.
Proof.
  intros H Hlt. unfold records, find_or_create_entry. rewrite H.
  apply Nat.ltb_lt in Hlt. by rewrite Hlt.
Qed.

Lemma records_dropped st api caller :
  find_entry st api caller = None -> num_entries st = MAX_ENTRIES ->
  records clock st api caller = false.
Proof.
  intros H Hfull. unfold records, find_or_create_entry. rewrite H, Hfull.
  done.
Qed.

Lemma step_total st api caller :
  wf st -> Forall (fun e => 1 <= count e) (entries st) ->
  total_count (entries st) + 1 < ULONG_MOD ->
  let st' := profiling_log clock st api caller in
  total_count (entries st')
  = total_count (entries st)
    + Z.of_nat (if records clock st api caller then 1 else 0) /\
  Forall (fun e => 1 <= count e) (entries st').
Proof.
  intros Hwf Hpos Hlt st'. subst st'.
  destruct (profiling_log_outcome clock st api caller Hwf)
    as [i e Hf He _ -> _ _ | Hf Hroom -> _ _ | Hf Hfull ->].
  - rewrite (records_found _ _ _ _ Hf).
    pose proof (total_count_lookup _ _ _ Hpos He) as Hle.
    pose proof (Forall_lookup_1 _ _ _ _ Hpos He) as Hge. cbv beta in Hge.
    assert (count (record_call (clock (clock_reads st)) e) = count e + 1) as Hc.
    { simpl. apply Z.mod_small. lia. }
    split.
    + rewrite (total_count_alter _ _ _ _ He). lia.
    + apply Forall_alter; [done|]. intros e0 He0 _.
      assert (e0 = e) as -> by congruence. lia.
  - rewrite (records_created _ _ _ Hf Hroom). split.
    + rewrite total_count_app. unfold total_count at 2. cbn [foldr].
      rewrite count_new_entry. lia.
    + apply Forall_app. split; [done|]. constructor; [|constructor].
      by rewrite count_new_entry.
  - rewrite (records_dropped _ _ _ Hf Hfull). split; [simpl; lia|done].
Qed.

Lemma recorded_calls_le ops : forall st,
  (recorded_calls clock ops st <= length ops)%nat.
Proof.
  induction ops as [|op ops IH]; intros st; simpl; [lia|].
  specialize (IH (profiling_log clock st op.1 op.2)).
  destruct (records clock st op.1 op.2); lia.
Qed.

Lemma run_total ops : forall st,
  wf st -> Forall (fun e => 1 <= count e) (entries st) ->
  total_count (entries st) + Z.of_nat (length ops) < ULONG_MOD ->
  total_count (entries (run clock ops st))
  = total_count (entries st) + Z.of_nat (recorded_calls clock ops st).
Proof.
  induction ops as [|op ops IH]; intros st Hwf Hpos Hlt.
  - simpl. lia.
  - rewrite run_cons. simpl length in Hlt. cbn [recorded_calls].
    destruct (step_total st op.1 op.2 Hwf Hpos) as [Ht Hp]; [lia|].
    rewrite IH; [|by apply wf_profiling_log|done|].
    + rewrite Ht. lia.
    + rewrite Ht. destruct (records clock st op.1 op.2); simpl; lia.
Qed.

Lemma num_entries_run_mono ops : forall st,
  wf st -> (num_entries st <= num_entries (run clock ops st))%nat.
Proof.
  induction ops as [|op ops IH]; intros st Hwf; [done|].
  rewrite run_cons.
  pose proof (num_entries_step clock st op.1 op.2 Hwf).
  specialize (IH _ (wf_profiling_log clock st op.1 op.2 Hwf)). lia.
Qed.

Lemma recorded_calls_all ops : forall st,
  wf st -> (num_entries (run clock ops st) < MAX_ENTRIES)%nat ->
  recorded_calls clock ops st = length ops.
Proof.
  induction ops as [|op ops IH]; intros st Hwf Hlt; [done|].
  rewrite run_cons in Hlt. cbn [recorded_calls length].
  pose proof (wf_profiling_log clock st op.1 op.2 Hwf) as Hwf'.
  pose proof (num_entries_run_mono ops _ Hwf').
  pose proof (num_entries_step clock st op.1 op.2 Hwf).
  rewrite (IH _ Hwf' Hlt).
  destruct (find_entry st op.1 op.2) as [i|] eqn:Hf.
  - by rewrite (records_found _ _ _ _ Hf).
  - rewrite (records_created _ _ _ Hf); [done|lia].
Qed.

End Counts.

Lemma occurrences_le k ops : 0 <= occurrences k ops <= Z.of_nat (length ops).
Proof.
  unfold occurrences.
  pose proof (length_filter (fun op => call_key op = k) ops). lia.
Qed.

Lemma ts_le_refl a : ts_le a a.
Proof. right. lia. Qed.

Lemma ts_le_trans a b c : ts_le a b -> ts_le b c -> ts_le a c.
Proof. unfold ts_le. lia. Qed.


(** In a run whose names all fit their buffers, no two entries bear the
    same names, and the count of an entry is the number of calls made
    under its names, modulo 2^64; it is that number itself as long as
    fewer than 2^64 calls have been made. *)
Theorem counts_by_call_site (clock : N -> timespec)
    (ops : list (list ascii * list ascii)) :
  Forall (fun op => fits op.1 /\ fits op.2) ops ->
  let st := run clock ops initial in
  NoDup (map entry_key (entries st)) /\
  forall e, e ∈ entries st ->
    count e = occurrences (entry_key e) ops mod ULONG_MOD /\
    (Z.of_nat (length ops) < ULONG_MOD ->
     count e = occurrences (entry_key e) ops).
Proof.
  intros Hfit st. destruct (run_counts_by_key clock ops Hfit) as [Hnd Hc].
  split; [exact Hnd|]. intros e He. specialize (Hc e He).
  split; [exact Hc|]. intros Hlen. rewrite Hc. apply Z.mod_small.
  pose proof (occurrences_le (entry_key e) ops). lia.
Qed.

(** The same at the scenario of two calls from [A] and one from [B]. *)
Lemma counts_by_call_site_witness :
  let ops := [(name "strcpy", name "A"); (name "strcpy", name "B");
              (name "strcpy", name "A")] in
  Forall (fun op => fits op.1 /\ fits op.2) ops /\
  NoDup (map entry_key (entries (run clock0 ops initial))).
Proof.
  intros ops.
  assert (Forall (fun op => fits op.1 /\ fits op.2) ops) as Hfit.
  { repeat constructor; unfold fits; vm_compute; lia. }
  split; [exact Hfit|].
  exact (proj1 (counts_by_call_site clock0 ops Hfit)).
Defined.

(** The table holds the call sites that were observed: the names of
    every entry, and so the names of every object of the report, are the
    truncated names of a call of the run, and as long as the table is
    not full the truncated names of every call are those of an entry. *)
Theorem table_holds_observed_call_sites (clock : N -> timespec)
    (ops : list (list ascii * list ascii)) :
  let st := run clock ops initial in
  (forall e, e ∈ entries st -> entry_key e ∈ map call_key ops) /\
  (forall r re, report_file (write_profile_data true st).2 = Some r ->
     re ∈ r_profile_data r ->
     (r_api_name re, r_caller_function re) ∈ map call_key ops) /\
  ((num_entries st < MAX_ENTRIES)%nat ->
   forall op, op ∈ ops -> call_key op ∈ map entry_key (entries st)).
Proof.
  intros st.
  pose proof (run_keys_seen clock ops) as Hseen. fold st in Hseen.
  rewrite Forall_forall in Hseen.
  split; [exact Hseen|]. split.
  - intros r re [= <-] Hre. cbn [r_profile_data] in Hre.
    apply list_elem_of_fmap in Hre as (e & -> & He). by apply Hseen.
  - intros Hlt. destruct (run_keys_cover clock ops) as [H|H]; [exact H|].
    fold st in H. lia.
Qed.

(** Below 2^64 calls, the total of the report is the number of calls
    that were recorded, which is the number of all calls of the run as
    long as the table is not full. *)
Theorem total_is_recorded_calls (clock : N -> timespec)
    (ops : list (list ascii * list ascii)) :
  Z.of_nat (length ops) < ULONG_MOD ->
  let st := run clock ops initial in
  (forall r, report_file (write_profile_data true st).2 = Some r ->
     total_dangerous_calls r = Z.of_nat (recorded_calls clock ops initial)) /\
  (recorded_calls clock ops initial <= length ops)%nat /\
  ((num_entries st < MAX_ENTRIES)%nat ->
   recorded_calls clock ops initial = length ops).
Proof.
  intros Hlen st.
  pose proof (recorded_calls_le clock ops initial) as Hle.
  split; [|split; [exact Hle|]].
  - intros r [= <-]. cbn [total_dangerous_calls].
    rewrite sum_counts_mod.
    pose proof (run_total clock ops initial wf_initial) as Ht.
    rewrite entries_initial in Ht. fold st in Ht.
    rewrite Ht; [|constructor|simpl; lia].
    simpl. apply Z.mod_small. lia.
  - intros Hlt. by apply recorded_calls_all; [apply wf_initial|].
Qed.

(** The same at the scenario of two calls from [A] and one from [B]. *)
Lemma total_is_recorded_calls_witness :
  let ops := [(name "strcpy", name "A"); (name "strcpy", name "B");
              (name "strcpy", name "A")] in
  recorded_calls clock0 ops initial = 3%nat.
Proof.
  intros ops.
  assert (Z.of_nat (length ops) < ULONG_MOD) as Hlen by (vm_compute; reflexivity).
  apply (proj2 (proj2 (total_is_recorded_calls clock0 ops Hlen))).
  vm_compute. lia.
Defined.

(** An entry keeps its slot, its names and its [first_call] for the
    rest of the run, and with a monotonic clock its [last_call] never
    goes back. *)
Theorem entry_keeps_names_and_first_call (clock : N -> timespec)
    (ops1 ops2 : list (list ascii * list ascii)) (i : nat) (e : ProfileEntry) :
  monotonic clock ->
  entries (run clock ops1 initial) !! i = Some e ->
  exists e', entries (run clock (ops1 ++ ops2) initial) !! i = Some e' /\
    api_name e' = api_name e /\ caller_name e' = caller_name e /\
    first_call e' = first_call e /\ ts_le (last_call e) (last_call e').
Proof.
  intros Hm He. induction ops2 as [|op ops2 IH] using rev_ind.
  - rewrite app_nil_r. exists e. repeat split; try done. apply ts_le_refl.
  - destruct IH as (e1 & He1 & Ha & Hc & Hf & Hl).
    rewrite app_assoc, run_snoc.
    pose proof (wf_run clock (ops1 ++ ops2) _ wf_initial) as Hwf.
    pose proof (run_stamped clock (ops1 ++ ops2)) as Hst.
    set (st := run clock (ops1 ++ ops2) initial) in *.
    destruct (profiling_log_outcome clock st op.1 op.2 Hwf)
      as [j e0 _ He0 _ -> _ _ | _ _ -> _ _ | _ _ ->].
    + destruct (decide (j = i)) as [->|Hne].
      * rewrite list_lookup_alter_eq, He1. simpl. eexists. split; [done|].
        cbn [api_name caller_name first_call last_call record_call].
        repeat split; try done.
        apply (ts_le_trans _ _ _ Hl).
        pose proof (Forall_lookup_1 _ _ _ _ Hst He1) as (a & b & Hab & _ & ->).
        destruct Hm as [Hm _]. apply Hm. lia.
      * rewrite list_lookup_alter_ne by done. by exists e1.
    + exists e1. by rewrite lookup_app_l by by eapply lookup_lt_Some.
    + by exists e1.
Qed.

(** The same for the entry of [A] over a call from [B] and another from
    [A]. *)
Lemma entry_keeps_names_and_first_call_witness :
  exists e', entries (run clock0 ([(name "strcpy", name "A")]
                                   ++ [(name "strcpy", name "B");
                                       (name "strcpy", name "A")]) initial)
             !! 0%nat = Some e' /\
    first_call e' = mkTimespec 0 0.
Proof.
  destruct (entry_keeps_names_and_first_call clock0
              [(name "strcpy", name "A")]
              [(name "strcpy", name "B"); (name "strcpy", name "A")]
              0%nat
              (new_entry (name "strcpy") (name "A") (clock0 0) (clock0 1))
              monotonic_clock0 eq_refl)
    as (e' & He' & _ & _ & Hf & _).
  exists e'. split; [exact He'|exact Hf].
Defined.



Lemma first_occurrences_snoc ks k :
  first_occurrences (ks ++ [k])
  = if decide (k ∈ first_occurrences ks) then first_occurrences ks
    else first_occurrences ks ++ [k].
Proof. unfold first_occurrences. by rewrite fold_left_app. Qed.

Lemma omap_site_of total es :
  omap site_of (map (call_site_line total) es) = map entry_key es.
Proof. induction es as [|e es IH]; [done|]. simpl. f_equal. exact IH. Qed.

(** In a run whose names all fit their buffers, the table lists the
    call sites in the order in which they were first seen, up to its
    capacity, and the console summary lists the first ten of them: its
    top call sites are the earliest, whatever their counts. *)
Theorem table_in_order_of_first_call (clock : N -> timespec)
    (ops : list (list ascii * list ascii)) :
  Forall (fun op => fits op.1 /\ fits op.2) ops ->
  let st := run clock ops initial in
  map entry_key (entries st)
  = take MAX_ENTRIES (first_occurrences (map call_key ops)) /\
  omap site_of (on_stdout (write_profile_data true st).2)
  = take 10 (first_occurrences (map call_key ops)).
Proof.
  intros Hfit st.
  assert (map entry_key (entries st)
          = take MAX_ENTRIES (first_occurrences (map call_key ops))) as Hkeys.
  { subst st. induction ops as [|op ops IH] using rev_ind; [done|].
    apply Forall_app in Hfit as [Hfit Hop].
    apply Forall_cons in Hop as [[Hf1 Hf2] _].
    specialize (IH Hfit). rewrite run_snoc, map_app. cbn [map].
    rewrite first_occurrences_snoc.
    pose proof (wf_run clock ops _ wf_initial) as Hwf.
    set (st := run clock ops initial) in *.
    set (fo := first_occurrences (map call_key ops)) in *.
    assert (call_key op = (c_str op.1, c_str op.2)) as Hkey.
    { unfold call_key. by rewrite !truncate_fits. }
    pose proof (length_entries _ Hwf) as Hlen.
    assert (length (take MAX_ENTRIES fo) = num_entries st) as Hlen'.
    { by rewrite <- IH, length_map. }
    rewrite length_take in Hlen'.
    destruct (profiling_log_outcome clock st op.1 op.2 Hwf)
      as [j e0 _ He0 Hk Hes _ _ | Hnone Hroom Hes _ _ | Hnone Hfull ->].
    - rewrite Hes, map_entry_key_alter by done.
      rewrite decide_True; [done|].
      assert (call_key op ∈ take MAX_ENTRIES fo) as Hin.
      { rewrite <- IH, Hkey, <- Hk. apply list_elem_of_fmap_2.
        by eapply list_elem_of_lookup_2. }
      apply list_elem_of_lookup in Hin as [i Hi].
      apply lookup_take_Some in Hi as [Hi _]. by eapply list_elem_of_lookup_2.
    - apply find_entry_None_key in Hnone. rewrite <- Hkey in Hnone.
      rewrite IH in Hnone. rewrite take_ge in Hnone, IH by lia.
      rewrite decide_False by done.
      rewrite Hes, map_app, IH. simpl. rewrite entry_key_new_entry.
      rewrite take_ge; [done|]. rewrite length_app. simpl. lia.
    - apply find_entry_None_key in Hnone. rewrite <- Hkey in Hnone.
      rewrite IH. destruct (decide (call_key op ∈ fo)); [done|].
      rewrite take_app_le; [done|lia]. }
  split; [exact Hkeys|].
  cbn [write_profile_data negb snd on_stdout].
  rewrite omap_app, top_call_sites_take, omap_site_of.
  change (10 - 0)%nat with 10%nat.
  assert (map entry_key (take 10 (entries st))
          = take 10 (map entry_key (entries st))) as -> by apply fmap_take.
  rewrite Hkeys, take_take. done.
Qed.

(** The same for two calls from [A] around a call from [B]. *)
Lemma table_in_order_of_first_call_witness :
  let ops := [(name "strcpy", name "A"); (name "strcpy", name "B");
              (name "strcpy", name "A")] in
  Forall (fun op => fits op.1 /\ fits op.2) ops /\
  map entry_key (entries (run clock0 ops initial))
  = take MAX_ENTRIES (first_occurrences (map call_key ops)).
Proof.
  intros ops.
  assert (Forall (fun op => fits op.1 /\ fits op.2) ops) as Hfit.
  { repeat constructor; unfold fits; vm_compute; lia. }
  split; [exact Hfit|].
  exact (proj1 (table_in_order_of_first_call clock0 ops Hfit)).
Defined.

End AccountingFacts.

(** ** The exit handler and the text of the report *)
Module ProcessFacts.
Import CString Runtime RuntimeFacts Process ReportText.

Lemma profiling_init_initialized p : initialized (profiling_init p) = true.
Proof. unfold profiling_init. by destruct (initialized p) eqn:E. Qed.

Lemma profiling_init_idemp p : profiling_init (profiling_init p) = profiling_init p.
Proof.
  unfold profiling_init at 1. by rewrite profiling_init_initialized.
Qed.

Lemma profiling_init_iter n :
  Nat.iter (S n) profiling_init startup
  = mkProcess true [Handler_write_profile_data].
Proof.
  induction n as [|n IH]; [done|].
  change (Nat.iter (S (S n)) profiling_init startup)
    with (profiling_init (Nat.iter (S n) profiling_init startup)).
  by rewrite IH.
Qed.

Lemma entries_lines_comma total es : forall i n,
  n = (i + length es)%nat ->
  entries_lines total n es i = comma_separated (map (report_line total) es).
Proof.
  induction es as [|e es IH]; intros i n Hn; [done|].
  cbn [entries_lines map]. rewrite (IH (S i) n) by (simpl in Hn; lia).
  destruct es as [|e' es].
  - simpl in Hn. assert ((i <? n - 1)%nat = false) as ->.
    { apply Nat.ltb_ge. lia. }
    simpl. by rewrite ?app_nil_r.
  - simpl in Hn. assert ((i <? n - 1)%nat = true) as ->.
    { apply Nat.ltb_lt. lia. }
    done.
Qed.

(** However often [profiling_init] runs, the exit handler is registered
    once: at exit the report is written once, from the table as the
    calls of the run have left it, and the table is not changed; a
    process in which [profiling_init] never ran writes nothing. *)
Theorem exit_handler_registered_once (clock : N -> timespec)
    (fopen_ok : bool) (n : nat) (ops : list (list ascii * list ascii))
    (p : process) :
  let st := run clock ops initial in
  profiling_init (profiling_init p) = profiling_init p /\
  atexit_handlers (Nat.iter (S n) profiling_init startup)
  = [Handler_write_profile_data] /\
  program clock fopen_ok (S n) ops = (st, [(write_profile_data fopen_ok st).2]) /\
  program clock fopen_ok 0 ops = (st, []).
Proof.
  intros st. split; [apply profiling_init_idemp|].
  split; [by rewrite profiling_init_iter|]. split; [|done].
  unfold program. rewrite profiling_init_iter.
  cbn [atexit_handlers exit_handlers call_handler]. fold st.
  by destruct fopen_ok.
Qed.

(** In the report file of every run, the objects of the array
    [profile_data] are those of the report, in the order of the table,
    with a comma after each but the last, and the summary gives the
    total and the number of entries of the report. *)
Theorem report_lines_comma_separated (clock : N -> timespec)
    (ops : list (list ascii * list ascii)) :
  let st := run clock ops initial in
  exists r, report_file (write_profile_data true st).2 = Some r /\
    report_lines st =
      [ObjectOpen; ProfileDataOpen]
      ++ comma_separated (r_profile_data r)
      ++ [ProfileDataClose; SummaryOpen;
          TotalDangerousCalls (total_dangerous_calls r);
          UniqueCallSitesLine (unique_call_sites r);
          SummaryClose; ObjectClose].
Proof.
  intros st. eexists. split; [reflexivity|].
  cbn [r_profile_data total_dangerous_calls unique_call_sites].
  unfold report_lines. do 2 f_equal.
  apply entries_lines_comma.
  pose proof (wf_run clock ops _ wf_initial) as Hwf. fold st in Hwf.
  by rewrite length_entries.
Qed.

End ProcessFacts.

(** ** The pass on its own output, and what it leaves alone *)
Module RerunFacts.
Import Pass PassFacts Rerun.

Lemma is_target_kind Inst : is_target Inst = kind_is_target (kind Inst).
Proof. by destruct Inst. Qed.

Lemma callee_name_kind Inst : callee_name Inst = kind_callee_name (kind Inst).
Proof. by destruct Inst. Qed.

Lemma instrumented_kinds_kinds LogFunc Fname BB :
  instrumented_kinds LogFunc Fname BB
  = instrument_kinds LogFunc Fname (map kind BB).
Proof.
  unfold instrumented_kinds, instrument_kinds, hook_kind.
  induction BB as [|Inst BB IH]; [done|]. simpl.
  by rewrite IH, is_target_kind, callee_name_kind.
Qed.

Section Hook.

Variable LogFunc : CalledFunction.
Variable Fname : string.
Hypothesis LogFunc_safe :
  existsb (String.eqb (fn_name LogFunc)) DangerousAPIs = false.

Lemma hook_not_target a Inst :
  is_target (mkInst a (hook_kind LogFunc Fname Inst)) = false.
Proof.
  unfold is_target, hook_kind. cbn [kind]. rewrite LogFunc_safe.
  apply andb_false_r.
Qed.

Lemma instrument_kinds_twice BB :
  instrument_kinds LogFunc Fname (instrumented_kinds LogFunc Fname BB)
  = instrumented_twice_kinds LogFunc Fname BB.
Proof.
  unfold instrument_kinds, instrumented_kinds, instrumented_twice_kinds.
  induction BB as [|Inst BB IH]; [done|]. simpl flat_map.
  rewrite flat_map_app, IH. f_equal.
  destruct (is_target Inst) eqn:Ht; simpl.
  - assert (kind_is_target (hook_kind LogFunc Fname Inst) = false) as ->.
    { apply (hook_not_target 0 Inst). }
    rewrite <- is_target_kind, Ht, <- callee_name_kind. done.
  - by rewrite <- is_target_kind, Ht.
Qed.

(** The call sites of an instrumented block are those of the block. *)
Lemma filter_target_instrumented BB BB' :
  map kind BB' = instrumented_kinds LogFunc Fname BB ->
  map kind (List.filter is_target BB') = map kind (List.filter is_target BB).
Proof.
  revert BB'. induction BB as [|Inst BB IH]; intros BB' H.
  - destruct BB'; [done|discriminate].
  - unfold instrumented_kinds in H. simpl in H.
    destruct (is_target Inst) eqn:Ht; simpl in H.
    + destruct BB' as [|hook [|Inst' BB']]; try discriminate.
      injection H as Hh Hi H. simpl.
      rewrite (is_target_kind hook), Hh.
      change (kind_is_target (hook_kind LogFunc Fname Inst))
        with (is_target (mkInst 0 (hook_kind LogFunc Fname Inst))).
      rewrite hook_not_target, (is_target_kind Inst'), Hi, <- is_target_kind, Ht.
      simpl. f_equal; [done|]. by apply IH.
    + destruct BB' as [|Inst' BB']; try discriminate.
      injection H as Hi H. simpl.
      rewrite (is_target_kind Inst'), Hi, <- is_target_kind, Ht.
      by apply IH.
Qed.

Lemma filter_target_blocks bbs bbs' :
  Forall2 (fun BB BB' => map kind BB' = instrumented_kinds LogFunc Fname BB)
          bbs bbs' ->
  map kind (List.filter is_target (concat bbs'))
  = map kind (List.filter is_target (concat bbs)).
Proof.
  induction 1 as [|BB BB' bbs bbs' H _ IH]; [done|]. simpl.
  rewrite !List.filter_app, !map_app, IH.
  by rewrite (filter_target_instrumented BB BB').
Qed.

End Hook.

Section Fresh.

Variable LogFunc : CalledFunction.
Variable Fname : string.

Lemma insert_before_notin a new BB :
  a ∉ map addr BB -> insert_before a new BB = BB.
Proof.
  induction BB as [|Inst BB IH]; intros Ha; [done|].
  simpl in Ha. apply not_elem_of_cons in Ha as [Hne Ha]. simpl.
  assert ((addr Inst =? a)%nat = false) as -> by (apply Nat.eqb_neq; congruence).
  by rewrite IH.
Qed.

Lemma insert_before_perm a new BB :
  a ∈ map addr BB -> insert_before a new BB ≡ₚ new :: BB.
Proof.
  induction BB as [|Inst BB IH]; intros Ha; [by apply elem_of_nil in Ha|].
  simpl. destruct (addr Inst =? a)%nat eqn:E; [done|].
  simpl in Ha. apply elem_of_cons in Ha as [Ha|Ha].
  { apply Nat.eqb_neq in E. congruence. }
  rewrite (IH Ha). apply Permutation_swap.
Qed.

(** An instruction is in one block only, so the hook call is inserted
    once. *)
Lemma insert_before_blocks_perm a new (bbs : list BasicBlock) :
  NoDup (map addr (concat bbs)) -> a ∈ map addr (concat bbs) ->
  concat (map (insert_before a new) bbs) ≡ₚ new :: concat bbs.
Proof.
  induction bbs as [|BB bbs IH]; intros Hnd Ha; [by apply elem_of_nil in Ha|].
  simpl in *. rewrite map_app in Hnd, Ha.
  apply NoDup_app in Hnd as (Hnd1 & Hdisj & Hnd2).
  apply elem_of_app in Ha as [Ha|Ha].
  - rewrite (insert_before_perm a new BB Ha).
    assert (map (insert_before a new) bbs = bbs) as ->; [|done].
    specialize (Hdisj a Ha). clear -Hdisj.
    induction bbs as [|BB' bbs IH]; [done|]. simpl in *.
    rewrite map_app, not_elem_of_app in Hdisj. destruct Hdisj as [H1 H2].
    by rewrite insert_before_notin, IH.
  - rewrite insert_before_notin.
    + rewrite (IH Hnd2 Ha). by rewrite Permutation_middle.
    + intros Hin. by apply (Hdisj a Hin).
Qed.

(** The rewrite loop keeps the instructions of the function distinct:
    every hook call is a new instruction. *)
Lemma instrument_fold_wf targets : forall rs,
  Forall (fun c => is_target c = true) targets ->
  NoDup (map addr (concat (rw_blocks rs))) ->
  Forall (fun Inst => (addr Inst < rw_next rs)%nat) (concat (rw_blocks rs)) ->
  Forall (fun c => addr c ∈ map addr (concat (rw_blocks rs))) targets ->
  let rs' := fold_left (instrument LogFunc Fname) targets rs in
  NoDup (map addr (concat (rw_blocks rs'))) /\
  Forall (fun Inst => (addr Inst < rw_next rs')%nat) (concat (rw_blocks rs')).
Proof.
  induction targets as [|c targets IH]; intros rs Ht Hnd Hlt Hin; [done|].
  apply Forall_cons in Ht as [Hc Ht]. apply Forall_cons in Hin as [Hcin Hin].
  simpl fold_left. rewrite (instrument_target LogFunc Fname rs c Hc).
  set (hook := mkInst (rw_next rs) (hook_kind LogFunc Fname c)).
  pose proof (insert_before_blocks_perm (addr c) hook (rw_blocks rs) Hnd Hcin)
    as Hperm.
  apply IH; cbn [rw_blocks rw_next]; [done| | |].
  - rewrite Hperm. simpl. apply NoDup_cons. split; [|done].
    intros Hh. apply list_elem_of_fmap in Hh as (Inst & Ha & HI).
    rewrite Forall_forall in Hlt. specialize (Hlt Inst HI). simpl in Ha. lia.
  - rewrite Hperm. apply Forall_cons. split; [simpl; lia|].
    eapply Forall_impl; [exact Hlt|]. intros Inst ?. simpl in *. lia.
  - eapply Forall_impl; [exact Hin|]. intros c' Hc'. simpl in Hc'.
    rewrite Hperm. simpl. by right.
Qed.

End Fresh.

Lemma wf_function_mono (b1 b2 : nat) F :
  (b1 <= b2)%nat -> wf_function b1 F -> wf_function b2 F.
Proof.
  intros Hle [Hnd Hlt]. split; [done|].
  eapply Forall_impl; [exact Hlt|]. intros Inst ?. simpl in *. lia.
Qed.

Lemma scan_function_targets F :
  Forall (fun c => is_target c = true) (scan_function F).
Proof.
  rewrite scan_function_spec. apply Forall_forall. intros c Hc.
  by apply list_elem_of_In, List.filter_In in Hc as [_ ?].
Qed.

(** The loop body keeps a function well formed, and the next free
    address only grows. *)
Lemma run_on_function_wf LogFunc (bound : nat) ps F :
  wf_function bound F -> (bound <= ps_next ps)%nat ->
  Forall (wf_function (ps_next ps)) (visited ps) ->
  let ps' := run_on_function LogFunc ps F in
  (ps_next ps <= ps_next ps')%nat /\
  Forall (wf_function (ps_next ps')) (visited ps').
Proof.
  intros HF Hb Hv. unfold run_on_function.
  destruct (isDeclaration F) eqn:Hd; cbn [visited ps_next].
  - split; [done|]. apply Forall_app. split; [done|].
    constructor; [|constructor]. by apply (wf_function_mono bound).
  - set (rs := mkRewrite (blocks F) (ps_globals ps) (ps_next ps)
                         (ps_Modified ps) (ps_errs ps)).
    pose proof (scan_function_targets F) as Ht.
    destruct (instrument_fold_state LogFunc (fname F) (scan_function F) rs Ht)
      as (_ & _ & _ & Hn).
    destruct HF as [Hnd Hlt].
    destruct (instrument_fold_wf LogFunc (fname F) (scan_function F) rs Ht)
      as [Hnd' Hlt'].
    + exact Hnd.
    + eapply Forall_impl; [exact Hlt|]. intros Inst ?. simpl in *. lia.
    + rewrite scan_function_spec. apply Forall_forall. intros c Hc.
      apply list_elem_of_In, List.filter_In in Hc as [Hc _].
      apply list_elem_of_fmap_2. by apply list_elem_of_In.
    + split; [rewrite Hn; simpl; lia|].
      apply Forall_app. split.
      * eapply Forall_impl; [exact Hv|]. intros F0.
        apply wf_function_mono. rewrite Hn. simpl. lia.
      * constructor; [|constructor]. by split.
Qed.

Lemma run_on_functions_wf LogFunc (bound : nat) Fs : forall ps,
  Forall (wf_function bound) Fs -> (bound <= ps_next ps)%nat ->
  Forall (wf_function (ps_next ps)) (visited ps) ->
  let ps' := fold_left (run_on_function LogFunc) Fs ps in
  Forall (wf_function (ps_next ps')) (visited ps').
Proof.
  induction Fs as [|F Fs IH]; intros ps Hwf Hb Hv; [done|].
  apply Forall_cons in Hwf as [HF Hwf]. simpl fold_left.
  destruct (run_on_function_wf LogFunc bound ps F HF Hb Hv) as [Hn Hv'].
  apply IH; [done|lia|done].
Qed.

Lemma wf_getOrInsertFunction name M :
  wf_module M -> Forall (wf_function (next_addr M))
                        (functions (getOrInsertFunction name M).2).
Proof.
  intros Hwf.
  destruct (getOrInsertFunction_cases name M) as [-> | ->]; [done|]. simpl.
  apply Forall_app. split; [done|]. constructor; [|constructor].
  split; constructor.
Qed.

Lemma next_addr_getOrInsertFunction name M :
  next_addr (getOrInsertFunction name M).2 = next_addr M /\
  globals (getOrInsertFunction name M).2 = globals M.
Proof. by destruct (getOrInsertFunction_cases name M) as [-> | ->]. Qed.

Lemma wf_module_run M : wf_module M -> wf_module (out_module (run M)).
Proof.
  intros Hwf. unfold run, wf_module.
  pose proof (wf_getOrInsertFunction "profiling_log" M Hwf) as Hwf1.
  pose proof (next_addr_getOrInsertFunction "profiling_log" M) as [Hn _].
  destruct (getOrInsertFunction "profiling_log" M) as [LogFunc M1].
  cbn [snd] in *. cbn [out_module functions next_addr].
  apply (run_on_functions_wf LogFunc (next_addr M)); [done|simpl; lia|constructor].
Qed.

(** What [run] returns on a well-formed module, in terms of the scan. *)
Lemma run_result M :
  wf_module M ->
  let LogFunc := mkCalled "profiling_log" false in
  let M1 := (getOrInsertFunction "profiling_log" M).2 in
  exists Fs',
    run M = mkResult
              (mkModule Fs' (globals M ++ all_strings (functions M1))
                        (next_addr M + site_count (functions M1)))
              (if existsb has_site (functions M1) then PA_none else PA_all)
              (all_diagnostics (functions M1)) /\
    Forall2 (function_rewritten LogFunc (next_addr M)) (functions M1) Fs'.
Proof.
  intros Hwf LogFunc M1.
  pose proof (wf_getOrInsertFunction "profiling_log" M Hwf) as Hwf1.
  pose proof (next_addr_getOrInsertFunction "profiling_log" M) as [Hn Hg].
  fold M1 in Hwf1, Hn, Hg.
  destruct (run_on_functions_spec LogFunc (next_addr M) (functions M1)
              (mkPass [] (globals M1) (next_addr M1) false []) Hwf1)
    as (Fs' & Hrun & HF2 & _); [simpl; lia|].
  exists Fs'. split; [|done].
  unfold run. change (getOrInsertFunction "profiling_log" M) with (LogFunc, M1).
  cbv beta iota zeta. rewrite Hrun.
  cbn [visited ps_globals ps_next ps_Modified ps_errs].
  by rewrite Hg, Hn.
Qed.

(** The scan does not see the declaration of the hook. *)
Lemma scan_getOrInsertFunction name M :
  let M1 := (getOrInsertFunction name M).2 in
  all_strings (functions M1) = all_strings (functions M) /\
  all_diagnostics (functions M1) = all_diagnostics (functions M) /\
  existsb has_site (functions M1) = existsb has_site (functions M) /\
  site_count (functions M1) = site_count (functions M).
Proof.
  intros M1. subst M1.
  destruct (getOrInsertFunction_cases name M) as [-> | ->]; [done|]. simpl.
  unfold all_strings, all_diagnostics, site_count.
  rewrite !flat_map_app, existsb_app. simpl.
  by rewrite !app_nil_r, orb_false_r.
Qed.

Lemma getOrInsertFunction_present name M :
  existsb (fun F => String.eqb (fname F) name) (functions M) = true ->
  (getOrInsertFunction name M).2 = M.
Proof. intros H. unfold getOrInsertFunction. simpl. by rewrite H. Qed.

Lemma getOrInsertFunction_declared name M :
  existsb (fun F => String.eqb (fname F) name)
          (functions (getOrInsertFunction name M).2) = true.
Proof.
  unfold getOrInsertFunction. simpl.
  destruct (existsb _ (functions M)) eqn:E; [done|]. simpl.
  rewrite existsb_app. simpl. by rewrite String.eqb_refl, orb_true_r.
Qed.

Lemma existsb_fname name (Fs Fs' : list IRFunction) :
  Forall2 (fun F F' => fname F' = fname F) Fs Fs' ->
  existsb (fun F => String.eqb (fname F) name) Fs'
  = existsb (fun F => String.eqb (fname F) name) Fs.
Proof. induction 1 as [|F F' Fs Fs' H _ IH]; [done|]. simpl. by rewrite H, IH. Qed.

Section Again.

Variable LogFunc : CalledFunction.
Variable bound : nat.
Hypothesis LogFunc_safe :
  existsb (String.eqb (fn_name LogFunc)) DangerousAPIs = false.

Lemma isDeclaration_rewritten F F' :
  function_rewritten LogFunc bound F F' -> isDeclaration F' = isDeclaration F.
Proof.
  intros [_ H]. unfold isDeclaration. by destruct H.
Qed.

(** An instrumented function has the call sites it had. *)
Lemma CallsToInstrument_rewritten F F' :
  function_rewritten LogFunc bound F F' ->
  map kind (CallsToInstrument F') = map kind (CallsToInstrument F).
Proof.
  intros HFF'. unfold CallsToInstrument.
  rewrite (isDeclaration_rewritten F F' HFF').
  destruct (isDeclaration F); [done|].
  rewrite !scan_function_spec. unfold instructions.
  destruct HFF' as [_ H].
  apply (filter_target_blocks LogFunc (fname F) LogFunc_safe).
  eapply Forall2_impl; [exact H|]. by intros BB BB' [? _].
Qed.

Lemma scan_rewritten Fs Fs' :
  Forall2 (function_rewritten LogFunc bound) Fs Fs' ->
  all_strings Fs' = all_strings Fs /\
  all_diagnostics Fs' = all_diagnostics Fs /\
  existsb has_site Fs' = existsb has_site Fs /\
  site_count Fs' = site_count Fs.
Proof.
  unfold all_strings, all_diagnostics, site_count.
  induction 1 as [|F F' Fs Fs' HF _ IH]; [done|].
  destruct IH as (IH1 & IH2 & IH3 & IH4).
  pose proof (CallsToInstrument_rewritten F F' HF) as Hk.
  destruct HF as [Hname _]. simpl.
  rewrite !length_app in *. rewrite IH1, IH2, IH3, Hname.
  assert (forall l l' : list Instruction, map kind l = map kind l' ->
            flat_map (fun c => [callee_name c; fname F]) l
            = flat_map (fun c => [callee_name c; fname F]) l' /\
            map (diagnostic (fname F)) l = map (diagnostic (fname F)) l' /\
            length l = length l' /\
            bool_decide (l = []) = bool_decide (l' = [])) as Haux.
  { clear. induction l as [|c l IH]; intros [|c' l'] H; try discriminate.
    - done.
    - injection H as Hc H. destruct (IH l' H) as (H1 & H2 & H3 & _). simpl.
      rewrite H1, H2, H3. unfold diagnostic. rewrite !callee_name_kind, Hc.
      done. }
  destruct (Haux _ _ Hk) as (-> & -> & -> & Hb).
  unfold has_site. rewrite Hb. repeat split. lia.
Qed.

Lemma twice_rewritten F F' F'' :
  function_rewritten LogFunc bound F F' ->
  fname F'' = fname F' ->
  Forall2 (fun BB' BB'' =>
             map kind BB'' = instrumented_kinds LogFunc (fname F') BB')
          (blocks F') (blocks F'') ->
  fname F'' = fname F /\
  Forall2 (fun BB BB'' =>
             map kind BB'' = instrumented_twice_kinds LogFunc (fname F) BB)
          (blocks F) (blocks F'').
Proof.
  intros [Hname H1] Hname' H2. split; [congruence|].
  rewrite Hname in H2. clear Hname Hname'.
  revert H2. generalize (blocks F''). induction H1 as [|BB BB' bbs bbs' [Hk _] _ IH].
  - intros l H. inversion H. constructor.
  - intros l H. inversion H as [|? BB'' ? bbs'' Hk'' H']; subst.
    constructor; [|by apply IH].
    rewrite Hk'', instrumented_kinds_kinds, Hk.
    by apply instrument_kinds_twice.
Qed.

End Again.

Lemma profiling_log_safe :
  existsb (String.eqb (fn_name (mkCalled "profiling_log" false))) DangerousAPIs
  = false.
Proof. reflexivity. Qed.

Lemma Forall2_twice LogFunc (b1 b2 : nat) Fs Fs' Fs'' :
  existsb (String.eqb (fn_name LogFunc)) DangerousAPIs = false ->
  Forall2 (function_rewritten LogFunc b1) Fs Fs' ->
  Forall2 (function_rewritten LogFunc b2) Fs' Fs'' ->
  Forall2 (fun F F'' =>
             fname F'' = fname F /\
             Forall2 (fun BB BB'' =>
                        map kind BB'' = instrumented_twice_kinds LogFunc (fname F) BB)
                     (blocks F) (blocks F''))
          Fs Fs''.
Proof.
  intros Hsafe H1. revert Fs''.
  induction H1 as [|F F' Fs Fs' HF _ IH]; intros Fs'' H2.
  - inversion H2. constructor.
  - inversion H2 as [|? F'' ? Fs''0 [Hn Hb] H2']; subst.
    constructor; [|by apply IH].
    apply (twice_rewritten LogFunc b1 Hsafe F F' F'' HF Hn).
    eapply Forall2_impl; [exact Hb|]. by intros BB BB' [? _].
Qed.

Lemma instrument_fold_length LogFunc Fname targets : forall rs,
  length (rw_blocks (fold_left (instrument LogFunc Fname) targets rs))
  = length (rw_blocks rs).
Proof.
  induction targets as [|c targets IH]; intros rs; [done|]. simpl.
  rewrite IH. unfold instrument.
  destruct (kind c) as [[CalledFunc|] args|op]; [|done|done].
  cbn [rw_blocks]. apply length_map.
Qed.

Lemma run_on_function_keeps LogFunc ps F :
  exists F',
    visited (run_on_function LogFunc ps F) = visited ps ++ [F'] /\
    fname F' = fname F /\
    length (blocks F') = length (blocks F) /\
    (CallsToInstrument F = [] -> F' = F).
Proof.
  unfold run_on_function, CallsToInstrument.
  destruct (isDeclaration F) eqn:Hd.
  - by exists F.
  - eexists. split; [reflexivity|]. cbn [fname blocks].
    split; [done|]. split; [apply instrument_fold_length|].
    intros ->. simpl. by destruct F.
Qed.

Lemma run_on_functions_keeps LogFunc Fs : forall ps,
  exists Fs',
    visited (fold_left (run_on_function LogFunc) Fs ps) = visited ps ++ Fs' /\
    Forall2 (fun F F' => fname F' = fname F /\
                         length (blocks F') = length (blocks F) /\
                         (CallsToInstrument F = [] -> F' = F)) Fs Fs'.
Proof.
  induction Fs as [|F Fs IH]; intros ps.
  - exists []. by rewrite app_nil_r.
  - simpl fold_left.
    destruct (run_on_function_keeps LogFunc ps F) as (F' & Hv & HF).
    destruct (IH (run_on_function LogFunc ps F)) as (Fs' & -> & HFs).
    exists (F' :: Fs'). rewrite Hv, <- app_assoc. split; [done|].
    by constructor.
Qed.

Lemma length_all_diagnostics Fs : length (all_diagnostics Fs) = site_count Fs.
Proof.
  unfold all_diagnostics, site_count.
  induction Fs as [|F Fs IH]; [done|]. simpl.
  by rewrite !length_app, length_map, IH.
Qed.

Lemma length_all_strings Fs : length (all_strings Fs) = (2 * site_count Fs)%nat.
Proof.
  unfold all_strings, site_count.
  induction Fs as [|F Fs IH]; [done|]. simpl.
  rewrite !length_app, IH.
  assert (length (flat_map (fun c => [callee_name c; fname F])
                           (CallsToInstrument F))
          = (2 * length (CallsToInstrument F))%nat) as ->; [|lia].
  induction (CallsToInstrument F) as [|c l IHl]; [done|]. simpl. lia.
Qed.

Lemma length_instrumented_kinds LogFunc Fname BB :
  length (instrumented_kinds LogFunc Fname BB)
  = (length BB + length (List.filter is_target BB))%nat.
Proof.
  unfold instrumented_kinds. induction BB as [|Inst BB IH]; [done|].
  simpl. rewrite length_app, IH. destruct (is_target Inst); simpl; lia.
Qed.

Lemma length_instructions_rewritten LogFunc (bound : nat) F F' :
  function_rewritten LogFunc bound F F' ->
  length (instructions F')
  = (length (instructions F) + length (CallsToInstrument F))%nat.
Proof.
  intros [_ H]. unfold CallsToInstrument, instructions.
  assert (length (concat (blocks F')) =
          (length (concat (blocks F))
           + length (List.filter is_target (concat (blocks F))))%nat) as ->.
  { induction H as [|BB BB' bbs bbs' [Hk _] _ IH]; [done|]. simpl.
    rewrite List.filter_app, !length_app, IH.
    rewrite <- (length_map kind BB'), Hk, length_instrumented_kinds. lia. }
  destruct (isDeclaration F) eqn:Hd.
  - unfold isDeclaration in Hd. by destruct (blocks F).
  - by rewrite scan_function_spec.
Qed.

(** The pass run a second time, on the module the first run returned,
    instruments every call site again: the module it is given is well
    formed, it finds the same call sites, writes the same diagnostics
    and creates the same string constants once more, and it leaves two
    hook calls right before each call site. *)
Theorem second_run_instruments_again (M : IRModule) :
  wf_module M ->
  let LogFunc := mkCalled "profiling_log" false in
  let M1 := (getOrInsertFunction "profiling_log" M).2 in
  let res1 := run M in
  let res2 := run (out_module res1) in
  wf_module (out_module res1) /\
  Forall2 (fun F F'' =>
             fname F'' = fname F /\
             Forall2 (fun BB BB'' =>
                        map kind BB'' = instrumented_twice_kinds LogFunc (fname F) BB)
                     (blocks F) (blocks F''))
          (functions M1) (functions (out_module res2)) /\
  diagnostics res2 = diagnostics res1 /\
  preserved res2 = preserved res1 /\
  globals (out_module res2)
  = globals (out_module res1) ++ all_strings (functions M) /\
  next_addr (out_module res2)
  = (next_addr (out_module res1) + site_count (functions M))%nat.
Proof.
  intros Hwf LogFunc M1 res1 res2.
  pose proof (wf_module_run M Hwf) as Hwf'. fold res1 in Hwf'.
  split; [exact Hwf'|].
  destruct (run_result M Hwf) as (Fs' & Hres1 & HF1).
  fold LogFunc M1 res1 in Hres1, HF1.
  destruct (scan_getOrInsertFunction "profiling_log" M) as (Hs & Hd & He & Hc).
  fold M1 in Hs, Hd, He, Hc.
  destruct (scan_rewritten LogFunc (next_addr M) profiling_log_safe _ _ HF1)
    as (Hs' & Hd' & He' & Hc').
  destruct (run_result (out_module res1) Hwf') as (Fs'' & Hres2 & HF2).
  fold LogFunc res2 in Hres2, HF2.
  assert ((getOrInsertFunction "profiling_log" (out_module res1)).2
          = out_module res1) as Hsame.
  { apply getOrInsertFunction_present. rewrite Hres1.
    cbn [out_module functions].
    rewrite (existsb_fname _ (functions M1) Fs').
    - apply getOrInsertFunction_declared.
    - eapply Forall2_impl; [exact HF1|]. by intros F F' [? _]. }
  rewrite Hsame in Hres2, HF2. clear Hsame.
  rewrite Hres1 in Hres2, HF2. cbn [out_module functions globals next_addr] in *.
  rewrite Hres2, Hres1. cbn [out_module functions globals next_addr
                               diagnostics preserved].
  rewrite Hs', Hd', He', Hc', Hs, Hc.
  split; [|done].
  by apply (Forall2_twice LogFunc _ _ _ _ _ profiling_log_safe HF1 HF2).
Qed.

(** The same at the sample module. *)
Lemma second_run_instruments_again_witness :
  wf_module sample_module /\
  diagnostics (run (out_module (run sample_module)))
  = diagnostics (run sample_module).
Proof.
  split; [exact wf_sample_module|].
  exact (proj1 (proj2 (proj2
           (second_run_instruments_again sample_module wf_sample_module)))).
Defined.

(** Whatever the module, the pass returns its functions in their order
    and under their names, each with as many blocks as it had, and a
    function in which the scan finds no call site, a declaration among
    them, is returned as it was, also when other functions are
    rewritten. *)
Theorem functions_without_call_sites_unchanged (M : IRModule) :
  let M1 := (getOrInsertFunction "profiling_log" M).2 in
  Forall2 (fun F F' => fname F' = fname F /\
                       length (blocks F') = length (blocks F) /\
                       (CallsToInstrument F = [] -> F' = F))
          (functions M1) (functions (out_module (run M))).
Proof.
  intros M1. unfold run.
  change (getOrInsertFunction "profiling_log" M)
    with (mkCalled "profiling_log" false, M1).
  cbv beta iota zeta. cbn [out_module functions].
  destruct (run_on_functions_keeps (mkCalled "profiling_log" false)
              (functions M1) (mkPass [] (globals M1) (next_addr M1) false []))
    as (Fs' & -> & H).
  exact H.
Qed.

(** On a well-formed module the pass creates one instruction, one
    diagnostic line and two string constants for each call site, and
    nothing else: every function grows by the number of its call
    sites. *)
Theorem one_hook_per_call_site (M : IRModule) :
  wf_module M ->
  let M1 := (getOrInsertFunction "profiling_log" M).2 in
  let res := run M in
  Forall2 (fun F F' =>
             length (instructions F')
             = (length (instructions F) + length (CallsToInstrument F))%nat)
          (functions M1) (functions (out_module res)) /\
  length (diagnostics res) = site_count (functions M) /\
  next_addr (out_module res) = (next_addr M + site_count (functions M))%nat /\
  length (globals (out_module res))
  = (length (globals M) + 2 * site_count (functions M))%nat.
Proof.
  intros Hwf M1 res.
  destruct (run_result M Hwf) as (Fs' & Hres & HF).
  fold M1 res in Hres, HF.
  destruct (scan_getOrInsertFunction "profiling_log" M) as (Hs & Hd & _ & Hc).
  fold M1 in Hs, Hd, Hc.
  rewrite Hres. cbn [out_module functions globals next_addr diagnostics].
  rewrite Hs, Hd, Hc, length_app, length_all_diagnostics, length_all_strings.
  split; [|done].
  eapply Forall2_impl; [exact HF|]. intros F F'.
  apply length_instructions_rewritten.
Qed.

(** The same at the sample module, which has two call sites. *)
Lemma one_hook_per_call_site_witness :
  wf_module sample_module /\
  next_addr (out_module (run sample_module)) = 7%nat.
Proof.
  split; [exact wf_sample_module|].
  exact (proj1 (proj2 (proj2
           (one_hook_per_call_site sample_module wf_sample_module)))).
Defined.

End RerunFacts.

(** ** Bounds, long names and the values of the report *)
Module SafetyFacts.
Import CString CStringFacts Runtime RuntimeFacts Accounting AccountingFacts Buffers.

Lemma c_str_length_le buf n :
  buf !! n = Some NUL -> (length (c_str buf) <= n)%nat.
Proof.
  revert n. induction buf as [|c buf IH]; intros n Hn; [done|].
  simpl. destruct (is_nul c) eqn:E; [simpl; lia|].
  destruct n as [|n]; simpl in Hn.
  - injection Hn as ->. by rewrite is_nul_NUL in E.
  - simpl. specialize (IH n Hn). lia.
Qed.

Lemma terminated_strncpy buf src :
  terminated buf -> terminated (strncpy buf src (MAX_NAME_LEN - 1)).
Proof.
  intros [Hl Hn]. split.
  - by rewrite length_strncpy.
  - by rewrite strncpy_lookup_ge.
Qed.

Lemma terminated_zero : terminated (replicate MAX_NAME_LEN NUL).
Proof.
  split; [apply length_replicate|]. apply lookup_replicate_2.
  unfold MAX_NAME_LEN. lia.
Qed.

Section Safety.

Variable clock : N -> timespec.

Lemma run_terminated ops :
  Forall (fun e => terminated (api_name e) /\ terminated (caller_name e))
         (profile_data (run clock ops initial)).
Proof.
  induction ops as [|op ops IH] using rev_ind.
  - apply Forall_replicate. split; apply terminated_zero.
  - rewrite run_snoc.
    pose proof (wf_run clock ops _ wf_initial) as Hwf.
    set (st := run clock ops initial) in *.
    destruct (find_entry st op.1 op.2) as [i|] eqn:Hf.
    + rewrite (profiling_log_found _ _ _ _ _ Hf). cbn [profile_data].
      apply Forall_alter; [done|]. by intros e _ He.
    + destruct (decide (num_entries st < MAX_ENTRIES)%nat) as [Hlt|Hge].
      * rewrite (profiling_log_created _ _ _ _ Hf Hlt). cbn [profile_data].
        apply Forall_alter; [|by intros e _ He].
        apply Forall_alter; [done|]. intros e _ [Ha Hc].
        split; by apply terminated_strncpy.
      * rewrite (profiling_log_dropped _ _ _ _ Hf); [done|lia].
Qed.

Lemma run_long_names ops :
  Forall (fun op => ~ (fits op.1 /\ fits op.2)) ops ->
  num_entries (run clock ops initial) = Nat.min (length ops) MAX_ENTRIES /\
  Forall (fun e => count e = 1) (entries (run clock ops initial)).
Proof.
  induction ops as [|op ops IH] using rev_ind; intros Hlong.
  - split; [done|constructor].
  - apply Forall_app in Hlong as [Hlong Hop].
    apply Forall_cons in Hop as [Hop _].
    destruct (IH Hlong) as [IHn IHc]. clear IH.
    rewrite run_snoc, length_app. simpl length.
    pose proof (wf_run clock ops _ wf_initial) as Hwf.
    set (st := run clock ops initial) in *.
    pose proof (find_entry_too_long st op.1 op.2 Hwf Hop) as Hnone.
    destruct (profiling_log_outcome clock st op.1 op.2 Hwf)
      as [i e Hf _ _ _ _ _ | _ Hlt -> -> _ | _ Hfull ->]; [congruence| |].
    + split; [lia|]. apply Forall_app. split; [done|].
      constructor; [|constructor]. apply count_new_entry.
    + split; [lia|done].
Qed.

Lemma run_clock_reads ops : forall st,
  wf st ->
  clock_reads (run clock ops st)
  = (clock_reads st + N.of_nat (recorded_calls clock ops st)
     + N.of_nat (num_entries (run clock ops st) - num_entries st))%N.
Proof.
  induction ops as [|op ops IH]; intros st Hwf.
  - simpl. lia.
  - rewrite run_cons. cbn [recorded_calls].
    pose proof (wf_profiling_log clock st op.1 op.2 Hwf) as Hwf'.
    pose proof (num_entries_run_mono clock ops _ Hwf') as Hmono.
    rewrite (IH _ Hwf').
    destruct (profiling_log_outcome clock st op.1 op.2 Hwf)
      as [i e Hf _ _ _ Hn Hr | Hf Hlt _ Hn Hr | Hf Hfull Hst].
    + rewrite (records_found _ _ _ _ _ Hf), Hr, Hn. lia.
    + rewrite (records_created _ _ _ _ Hf Hlt), Hr. rewrite Hn in *. lia.
    + rewrite (records_dropped _ _ _ _ Hf Hfull), Hst. lia.
Qed.

End Safety.

(** The table is never accessed out of bounds and its names stay
    terminated: in every state a run reaches, whatever the lengths of the
    names that were passed, the index [find_or_create_entry] returns is
    below [num_entries], which is at most [MAX_ENTRIES], the size of the
    table; every name buffer has its [MAX_NAME_LEN] bytes, the last of
    which is the NUL of the zero-initialised table, which [strncpy]
    never overwrites; so every name read from the table ends within its
    buffer. *)
Theorem table_accesses_in_bounds (clock : N -> timespec)
    (ops : list (list ascii * list ascii)) (api caller : list ascii) :
  let st := run clock ops initial in
  let res := find_or_create_entry clock st api caller in
  length (profile_data st) = MAX_ENTRIES /\
  (num_entries st <= MAX_ENTRIES)%nat /\
  (forall i, res.1 = Some i ->
     (i < num_entries res.2 <= MAX_ENTRIES)%nat /\
     length (profile_data res.2) = MAX_ENTRIES) /\
  Forall (fun e => terminated (api_name e) /\ terminated (caller_name e) /\
                   (length (c_str (api_name e)) < MAX_NAME_LEN)%nat /\
                   (length (c_str (caller_name e)) < MAX_NAME_LEN)%nat)
         (profile_data st).
Proof.
  intros st res.
  pose proof (wf_run clock ops _ wf_initial) as Hwf. fold st in Hwf.
  pose proof (wf_length _ Hwf) as Hlen. pose proof (wf_num _ Hwf) as Hnum.
  split; [exact Hlen|]. split; [exact Hnum|]. split.
  - subst res. unfold find_or_create_entry.
    destruct (find_entry st api caller) as [j|] eqn:Hf.
    + intros i [= <-]. cbn [snd]. split; [|done].
      pose proof (find_entry_lt _ _ _ _ Hwf Hf). lia.
    + destruct (num_entries st <? MAX_ENTRIES)%nat eqn:Hlt; [|done].
      apply Nat.ltb_lt in Hlt. intros i [= <-].
      cbn [snd num_entries profile_data]. rewrite length_alter. lia.
  - eapply Forall_impl; [apply run_terminated|].
    intros e [[Ha1 Ha2] [Hc1 Hc2]]. repeat split; try done.
    + pose proof (c_str_length_le _ _ Ha2). unfold MAX_NAME_LEN in *. lia.
    + pose proof (c_str_length_le _ _ Hc2). unfold MAX_NAME_LEN in *. lia.
Qed.

(** Calls with a name too long for its buffer take one slot each, also
    when they all come from one call site: after [n] such calls the
    table has [min n MAX_ENTRIES] entries, each with count 1, so
    [MAX_ENTRIES] of them fill the table. *)
Theorem long_names_take_a_slot_each (clock : N -> timespec)
    (ops : list (list ascii * list ascii)) :
  Forall (fun op => ~ (fits op.1 /\ fits op.2)) ops ->
  let st := run clock ops initial in
  num_entries st = Nat.min (length ops) MAX_ENTRIES /\
  Forall (fun e => count e = 1) (entries st).
Proof. intros Hlong st. by apply run_long_names. Qed.

(** The same at two calls from [main] with a name of 256 characters. *)
Lemma long_names_take_a_slot_each_witness :
  let ops := replicate 2 (long_name, name "main") in
  Forall (fun op => ~ (fits op.1 /\ fits op.2)) ops /\
  num_entries (run clock0 ops initial) = 2%nat.
Proof.
  intros ops.
  assert (~ (fits long_name /\ fits (name "main"))) as Hlong.
  { intros [H _]. unfold fits in H. vm_compute in H. lia. }
  assert (Forall (fun op => ~ (fits op.1 /\ fits op.2)) ops) as Hall.
  { repeat constructor; exact Hlong. }
  split; [exact Hall|].
  exact (proj1 (long_names_take_a_slot_each clock0 ops Hall)).
Defined.

(** With fewer than 2^64 calls in the run, every percentage of the
    report is defined and lies between 0 and 100. *)
Theorem percentages_in_range (clock : N -> timespec)
    (ops : list (list ascii * list ascii)) :
  Z.of_nat (length ops) < ULONG_MOD ->
  let st := run clock ops initial in
  forall r re, report_file (write_profile_data true st).2 = Some r ->
    re ∈ r_profile_data r ->
    exists q, r_percentage_of_total re = Some q /\ (0 <= q <= 100)%Q.
Proof.
  intros Hlen st r re [= <-] Hre. cbn [r_profile_data] in Hre.
  apply list_elem_of_fmap in Hre as (e & -> & He).
  destruct (run_counts clock ops Hlen) as [Hpos Htot]. fold st in Hpos, Htot.
  apply list_elem_of_lookup in He as [i Hi].
  pose proof (total_count_lookup _ _ _ Hpos Hi) as Hle.
  pose proof (Forall_lookup_1 _ _ _ _ Hpos Hi) as Hge. cbv beta in Hge.
  rewrite sum_counts_mod, Z.mod_small by lia.
  set (total := total_count (entries st)) in *.
  unfold report_line. cbn [r_percentage_of_total].
  assert ((0 <? total) = true) as -> by (apply Z.ltb_lt; lia).
  rewrite fdiv_Some by lia. eexists. split; [reflexivity|].
  assert (0 < inject_Z total)%Q as Hq by (rewrite <- (Zlt_Qlt 0); lia).
  split.
  - apply Qle_shift_div_l; [exact Hq|]. rewrite Qmult_0_l.
    change 100%Q with (inject_Z 100). rewrite <- inject_Z_mult.
    rewrite <- (Zle_Qle 0). lia.
  - apply Qle_shift_div_r; [exact Hq|].
    change 100%Q with (inject_Z 100). rewrite <- !inject_Z_mult.
    rewrite <- Zle_Qle. lia.
Qed.

(** The same at the scenario of two calls from [A] and one from [B]. *)
Lemma percentages_in_range_witness :
  let ops := [(name "strcpy", name "A"); (name "strcpy", name "B");
              (name "strcpy", name "A")] in
  Z.of_nat (length ops) < ULONG_MOD /\
  forall r re,
    report_file (write_profile_data true (run clock0 ops initial)).2 = Some r ->
    re ∈ r_profile_data r ->
    exists q, r_percentage_of_total re = Some q /\ (0 <= q <= 100)%Q.
Proof.
  intros ops.
  assert (Z.of_nat (length ops) < ULONG_MOD) as Hlen by (vm_compute; reflexivity).
  split; [exact Hlen|].
  exact (percentages_in_range clock0 ops Hlen).
Defined.

(** The clock is read once for every recorded call and once more for
    every entry created; a call that is dropped reads no clock. *)
Theorem clock_read_per_recorded_call (clock : N -> timespec)
    (ops : list (list ascii * list ascii)) :
  let st := run clock ops initial in
  clock_reads st
  = N.of_nat (recorded_calls clock ops initial + num_entries st).
Proof.
  intros st. subst st.
  rewrite (run_clock_reads clock ops initial wf_initial).
  cbn [clock_reads num_entries initial]. lia.
Qed.

End SafetyFacts.
